(** * glider: time windows, forwarder groups and the rule router

    A shallow embedding of three Go packages of the proxy
    ([common/timewindow], [strategy] and [rule]) and the properties of
    them that the design document states.

    Conventions.  A Go [int], [uint32], [uint8] or [time.Duration] is a
    [Z], with the wrap-around of the fixed-width types written out.  A Go
    [string] is a [string] (a sequence of bytes).  [log.Fatal], which
    ends the process, and a run-time panic are explicit results.  A
    [*Forwarder] is an index into the store of forwarders that the group
    owns, so that the slices of a group alias the same objects. *)

From Stdlib Require Import ZArith Lia Ascii String DecimalString.
From stdpp Require Import base option list gmap strings.


(** ** The Go standard library, as far as the sources use it *)

(** What [strings] does on input that is not pure ASCII is table driven
    (Unicode case mapping and white space); the tables stay outside. *)
Class GoUnicode := {
  unicodeToUpper : string → string;
  unicodeToLower : string → string;
  unicodeFields : string → list string
}.

Module strings.

Definition byteVal (c : ascii) : Z := Z.of_N (N_of_ascii c).

Definition len (s : string) : Z := Z.of_nat (String.length s).

Fixpoint isASCII (s : string) : bool :=
  match s with
  | EmptyString => true
  | String c s' => (byteVal c <? 128)%Z && isASCII s'
  end.

Fixpoint mapBytes (f : ascii → ascii) (s : string) : string :=
  match s with
  | EmptyString => EmptyString
  | String c s' => String (f c) (mapBytes f s')
  end.

Definition upperByte (c : ascii) : ascii :=
  if (97 <=? byteVal c)%Z && (byteVal c <=? 122)%Z
  then ascii_of_N (N_of_ascii c - 32) else c.

Definition lowerByte (c : ascii) : ascii :=
  if (65 <=? byteVal c)%Z && (byteVal c <=? 90)%Z
  then ascii_of_N (N_of_ascii c + 32) else c.

(** [strings.ToUpper]: the ASCII fast path, else [Map(unicode.ToUpper, s)]. *)
Definition ToUpper `{GoUnicode} (s : string) : string :=
  if isASCII s then mapBytes upperByte s else unicodeToUpper s.

Definition ToLower `{GoUnicode} (s : string) : string :=
  if isASCII s then mapBytes lowerByte s else unicodeToLower s.

(** The table [asciiSpace]: tab, line feed, vertical tab, form feed,
    carriage return and space. *)
Definition asciiSpace (c : ascii) : bool :=
  let n := byteVal c in
  ((9 <=? n)%Z && (n <=? 13)%Z) || (n =? 32)%Z.

(** The ASCII loop of [strings.Fields]; [cur] is [s[fieldStart:i]]. *)
Fixpoint fieldsFrom (cur : string) (s : string) : list string :=
  match s with
  | EmptyString => if String.eqb cur "" then [] else [cur]
  | String c s' =>
      if asciiSpace c
      then (if String.eqb cur "" then fieldsFrom "" s'
            else cur :: fieldsFrom "" s')
      else fieldsFrom (cur +:+ String c "") s'
  end.

Definition Fields `{GoUnicode} (s : string) : list string :=
  if isASCII s then fieldsFrom "" s else unicodeFields s.

(** [strings.Split(s, sep)] for a separator of one byte, which is what
    every call in the sources passes. *)
Fixpoint Split (s : string) (sep : ascii) : list string :=
  match s with
  | EmptyString => [""]
  | String c s' =>
      if Ascii.eqb c sep then "" :: Split s' sep
      else match Split s' sep with
           | x :: xs => String c x :: xs
           | [] => [String c ""]
           end
  end.

(** [strings.IndexByte] and [strings.LastIndexByte]; -1 when absent. *)
Fixpoint IndexByte (s : string) (c : ascii) : Z :=
  match s with
  | EmptyString => -1
  | String a s' =>
      if Ascii.eqb a c then 0
      else let r := IndexByte s' c in if (r <? 0)%Z then -1 else (r + 1)%Z
  end.

Fixpoint LastIndexByte (s : string) (c : ascii) : Z :=
  match s with
  | EmptyString => -1
  | String a s' =>
      let r := LastIndexByte s' c in
      if (r <? 0)%Z then (if Ascii.eqb a c then 0 else -1)%Z else (r + 1)%Z
  end.

(** The slices [s[:i]] and [s[i:]] for [0 <= i <= len(s)]. *)
Fixpoint takeN (n : nat) (s : string) : string :=
  match n, s with
  | S n', String c s' => String c (takeN n' s')
  | _, _ => EmptyString
  end.

Fixpoint dropN (n : nat) (s : string) : string :=
  match n, s with
  | S n', String _ s' => dropN n' s'
  | _, _ => s
  end.

Definition sliceTo (s : string) (i : Z) : string := takeN (Z.to_nat i) s.
Definition sliceFrom (s : string) (i : Z) : string := dropN (Z.to_nat i) s.

End strings.

Module strconv.

Definition digitVal (c : ascii) : option Z :=
  let n := strings.byteVal c in
  if (48 <=? n)%Z && (n <=? 57)%Z then Some (n - 48)%Z else None.

Fixpoint digits (acc : Z) (s : string) : option Z :=
  match s with
  | EmptyString => Some acc
  | String c s' =>
      match digitVal c with
      | Some d => digits (acc * 10 + d) s'
      | None => None
      end
  end.

Definition inInt64 (n : Z) : bool :=
  (- 2 ^ 63 <=? n)%Z && (n <=? 2 ^ 63 - 1)%Z.

(** [strconv.Atoi]: an optional sign, then one or more decimal digits;
    [None] is the error result (syntax or range). *)
Definition Atoi (s : string) : option Z :=
  match s with
  | EmptyString => None
  | String c s' =>
      let neg := Ascii.eqb c "-" in
      let body := if neg || Ascii.eqb c "+" then s' else s in
      match body with
      | EmptyString => None
      | _ =>
          match digits 0 body with
          | Some n =>
              let r := if neg then (- n)%Z else n in
              if inInt64 r then Some r else None
          | None => None
          end
      end
  end.

End strconv.

Module fmt.

(** The verb [%d] on an [int]. *)
Definition d (n : Z) : string := NilZero.string_of_int (Z.to_int n).

(** The verb [%02d]: zero padding to width two, the sign counted. *)
Definition d02 (n : Z) : string :=
  if (n <? 0)%Z then d n
  else if (n <? 10)%Z then "0" +:+ d n
  else d n.

End fmt.

(** ** Package timewindow *)

Module timewindow.

Record TimeWindow := mkTimeWindow {
  FromDay : Z;   (* 1 - Monday, 7 = Sunday, inclusive *)
  ToDay : Z;
  FromHour : Z;  (* 0 - midnight, 23 = 11PM *)
  FromMin : Z;
  ToHour : Z;
  ToMin : Z
}.

(** What [Contains] reads of a [time.Time]. *)
Record Time := mkTime {
  Weekday : Z;   (* time.Weekday: 0 = Sunday .. 6 = Saturday *)
  Hour : Z;
  Minute : Z
}.

(** [None] is [log.Fatal]. *)
Definition parseDaysOfWeek `{GoUnicode} (daysOfWeekString : string)
  : option (Z * Z) :=
  let u := strings.ToUpper daysOfWeekString in
  if String.eqb u "MON" then Some (1, 1)%Z
  else if String.eqb u "TUE" then Some (2, 2)%Z
  else if String.eqb u "WED" then Some (3, 3)%Z
  else if String.eqb u "THU" then Some (4, 4)%Z
  else if String.eqb u "FRI" then Some (5, 5)%Z
  else if String.eqb u "SAT" then Some (6, 6)%Z
  else if String.eqb u "SUN" then Some (7, 7)%Z
  else
    match strings.Split daysOfWeekString "-" with
    | [d0; d1] =>
        if negb (strings.len d0 =? 1)%Z || negb (strings.len d1 =? 1)%Z
        then None
        else
          from ← strconv.Atoi d0;
          to ← strconv.Atoi d1;
          if (from <? 1)%Z || (7 <? from)%Z || (to <? 1)%Z || (7 <? to)%Z
          then None
          else Some (from, to)
    | _ => None
    end.

Definition parseTime (timeString : string) : option (Z * Z) :=
  match strings.Split timeString ":" with
  | [t0; t1] =>
      if (strings.len t0 =? 0)%Z || (2 <? strings.len t0)%Z
         || (strings.len t1 =? 0)%Z || (2 <? strings.len t1)%Z
      then None
      else
        hour ← strconv.Atoi t0;
        min ← strconv.Atoi t1;
        if (hour <? 0)%Z || (23 <? hour)%Z || (min <? 0)%Z || (59 <? min)%Z
        then None
        else Some (hour, min)
  | _ => None
  end.

Definition Contains (timeWindow : TimeWindow) (time : Time) : bool :=
  let weekday := if (Weekday time =? 0)%Z then 7%Z else Weekday time in
  if (weekday <? FromDay timeWindow)%Z || (ToDay timeWindow <? weekday)%Z
  then false
  else if (Hour time <? FromHour timeWindow)%Z
          || (ToHour timeWindow <? Hour time)%Z
  then false
  else if (Hour time =? FromHour timeWindow)%Z
          && (Minute time <? FromMin timeWindow)%Z
  then false
  else if (Hour time =? ToHour timeWindow)%Z
          && (ToMin timeWindow <? Minute time)%Z
  then false
  else true.

Definition dayOfWeekNames : list string :=
  ["XXX"; "MON"; "TUE"; "WED"; "THU"; "FRI"; "SAT"; "SUN"].

(** The local [daysOfWeekString] of [String]; [None] is the
    index-out-of-range panic of [dayOfWeekNames[FromDay]]. *)
Definition daysOfWeekString (timeWindow : TimeWindow) : option string :=
  if (FromDay timeWindow =? ToDay timeWindow)%Z
  then (if (FromDay timeWindow <? 0)%Z then None
        else dayOfWeekNames !! Z.to_nat (FromDay timeWindow))
  else Some (fmt.d (FromDay timeWindow) +:+ "-" +:+ fmt.d (ToDay timeWindow)).

(** [String] converts the value to a string. *)
Definition String_ (timeWindow : TimeWindow) : option string :=
  days ← daysOfWeekString timeWindow;
  Some (days +:+ " "
        +:+ fmt.d02 (FromHour timeWindow) +:+ ":" +:+ fmt.d02 (FromMin timeWindow)
        +:+ " "
        +:+ fmt.d02 (ToHour timeWindow) +:+ ":" +:+ fmt.d02 (ToMin timeWindow)).

(** [Parse]; [None] is [log.Fatal]. *)
Definition Parse `{GoUnicode} (timeWindowString : string) : option TimeWindow :=
  match strings.Fields timeWindowString with
  | [f0; f1; f2] =>
      '(fromDay, toDay) ← parseDaysOfWeek f0;
      '(fromHour, fromMin) ← parseTime f1;
      '(toHour, toMin) ← parseTime f2;
      Some (mkTimeWindow fromDay toDay fromHour fromMin toHour toMin)
  | _ => None
  end.

End timewindow.

(** ** Package gliderflag: the flag value for a list of time windows *)

Module gliderflag.
Import timewindow.

(** [timeWindowSliceValue]; [value] is the slice that the pointer of
    the Go struct refers to. *)
Record timeWindowSliceValue := mkValue {
  value : list TimeWindow;
  changed : bool
}.

(** [Set]; [None] is the [log.Fatal] of [timewindow.Parse]. *)
Definition Set_ `{GoUnicode} (val : string) (s : timeWindowSliceValue)
  : option timeWindowSliceValue :=
  w ← Parse val;
  if negb (changed s) then Some (mkValue [w] true)
  else Some (mkValue (value s ++ [w]) true).

(** [String] *)
Definition String_ (s : timeWindowSliceValue) : string := "".

(** [TimeWindowSliceVar]: the value that is registered under the
    flag, holding the default. *)
Definition TimeWindowSliceVar (defaultValue : list TimeWindow)
  : timeWindowSliceValue :=
  mkValue defaultValue false.

End gliderflag.

(** [sort.Sort] on a slice, by the [Less] of its elements.  The
    algorithm differs between Go releases; the sources rely on its
    contract only. *)
Class GoSort := {
  sortSort : ∀ {A : Type}, (A → A → bool) → list A → list A
}.

(** [hash/fnv]: the 32-bit FNV-1a hash of a byte sequence. *)
Module fnv.

Definition offset32 : Z := 2166136261.
Definition prime32 : Z := 16777619.

Fixpoint write (h : Z) (s : string) : Z :=
  match s with
  | EmptyString => h
  | String c s' =>
      write ((Z.lxor h (strings.byteVal c) * prime32) mod 2 ^ 32)%Z s'
  end.

Definition Sum32a (s : string) : Z := write offset32 s.

End fnv.

(** [net]: addresses.  [SplitHostPort] is plain string handling; the
    parsers and the types of IP addresses and networks stay outside. *)
Class GoNet := {
  netIP : Type;
  netIPNet : Type;
  ParseIP : string → option netIP;
  IP_String : netIP → string;
  ParseCIDR : string → option netIPNet;
  IPNet_Contains : netIPNet → netIP → bool
}.

Module net.

(** [s[a:b]] *)
Definition slice (s : string) (a b : Z) : string :=
  strings.takeN (Z.to_nat (b - a)) (strings.dropN (Z.to_nat a) s).

(** [net.SplitHostPort]; [None] is the error result. *)
Definition SplitHostPort (hostport : string) : option (string * string) :=
  (* The port starts after the last colon. *)
  let i := strings.LastIndexByte hostport ":" in
  if (i <? 0)%Z then None
  else
    match hostport with
    | String "[" _ =>
        (* Expect the first ']' just before the last ':'. *)
        let e := strings.IndexByte hostport "]" in
        if (e <? 0)%Z then None
        else if (e + 1 =? strings.len hostport)%Z then None
        else if (e + 1 =? i)%Z then
          if (0 <=? strings.IndexByte (strings.sliceFrom hostport 1) "[")%Z
          then None
          else if (0 <=? strings.IndexByte (strings.sliceFrom hostport (e + 1)) "]")%Z
          then None
          else Some (slice hostport 1 e, strings.sliceFrom hostport (i + 1))
        else None
    | _ =>
        let host := strings.sliceTo hostport i in
        if (0 <=? strings.IndexByte host ":")%Z then None
        else if (0 <=? strings.IndexByte hostport "[")%Z then None
        else if (0 <=? strings.IndexByte hostport "]")%Z then None
        else Some (host, strings.sliceFrom hostport (i + 1))
    end.

End net.

(** ** Package strategy *)

Module strategy.
Export timewindow.

Definition uint32 (n : Z) : Z := (n mod 2 ^ 32)%Z.
Definition uint8 (n : Z) : Z := (n mod 2 ^ 8)%Z.
Definition int64 (n : Z) : Z := ((n + 2 ^ 63) mod 2 ^ 64 - 2 ^ 63)%Z.

(** [time.Duration(n) * time.Second], in nanoseconds. *)
Definition seconds (n : Z) : Z := int64 (n * 1000000000).

#[global] Arguments uint32 : simpl never.
#[global] Arguments uint8 : simpl never.
#[global] Arguments int64 : simpl never.
#[global] Arguments seconds : simpl never.

Record Config := mkConfig {
  Strategy : string;
  CheckWebSite : string;
  CheckInterval : Z;
  CheckTimeout : Z;
  CheckDisabledOnly : bool;
  MaxFailures : Z;
  DialTimeout : Z;
  RelayTimeout : Z;
  IntFace : string;
  ForwardTime : list TimeWindow;
  RejectTime : list TimeWindow
}.

(** A [*Forwarder]: the position of the object in the store. *)
Definition ptr := nat.

(** The callbacks that [AddHandler] is given in the sources: only the
    group's own [onStatusChanged]. *)
Inductive handler := onStatusChangedOfGroup.

(** Modelled from the spec: the struct [Forwarder] (strategy/forwarder.go
    is absent): address, priority, the enabled flag (kept as
    [disabled], so that the zero value is enabled), latency, the
    count of consecutive failures, its threshold, and the observers
    in registration order. *)
Record Forwarder := mkForwarder {
  addr : string;
  fpriority : Z;
  disabled : bool;
  latency : Z;
  failures : Z;
  maxfailures : Z;
  handlers : list handler
}.

#[export] Instance Forwarder_inhabited : Inhabited Forwarder :=
  populate (mkForwarder "" 0 false 0 0 0 []).

(** Modelled from the spec: [Enabled], the flag of a forwarder
    (strategy/forwarder.go is absent). *)
Definition Enabled (f : Forwarder) : bool := negb (disabled f).

(** Modelled from the spec: [Priority], the priority of a forwarder,
    fixed when it is made (strategy/forwarder.go is absent). *)
Definition Priority (f : Forwarder) : Z := fpriority f.

(** Modelled from the spec: [Latency], the latency last stored
    (strategy/forwarder.go is absent). *)
Definition Latency (f : Forwarder) : Z := latency f.

(** Updates of one field of the struct. *)
Definition setDisabled (b : bool) (f : Forwarder) : Forwarder :=
  mkForwarder (addr f) (fpriority f) b (latency f) (failures f)
    (maxfailures f) (handlers f).
Definition setFailures (n : Z) (f : Forwarder) : Forwarder :=
  mkForwarder (addr f) (fpriority f) (disabled f) (latency f) n
    (maxfailures f) (handlers f).
Definition setLatency (n : Z) (f : Forwarder) : Forwarder :=
  mkForwarder (addr f) (fpriority f) (disabled f) n (failures f)
    (maxfailures f) (handlers f).

(** Modelled from the spec: [SetMaxFailures] stores the threshold of
    failures (strategy/forwarder.go is absent). *)
Definition SetMaxFailures (n : Z) (f : Forwarder) : Forwarder :=
  mkForwarder (addr f) (fpriority f) (disabled f) (latency f) (failures f)
    n (handlers f).

(** Modelled from the spec: [AddHandler] registers an observer after
    those already there (strategy/forwarder.go is absent). *)
Definition AddHandler (h : handler) (f : Forwarder) : Forwarder :=
  mkForwarder (addr f) (fpriority f) (disabled f) (latency f) (failures f)
    (maxfailures f) (handlers f ++ [h]).

(** The constructors of forwarders are in the absent file too, and the
    design document leaves the URL syntax open: they are taken as
    given.  [None] is the error result. *)
Class ForwarderSource := {
  ForwarderFromURL : string → string → Z → Z → option Forwarder;
  DirectForwarder : string → Z → Z → Forwarder
}.

(** The function value stored in the field [next]. *)
Inductive scheduler := nextRR | nextHA | nextLHA | nextDH.

Record Proxy := mkProxy {
  name : string;
  config : Config;
  store : list Forwarder;   (* the objects the pointers below refer to *)
  fwdrs : list ptr;
  avail : list ptr;         (* available forwarders *)
  rejectFwdr : ptr;
  index : Z;
  priority : Z;
  next : scheduler
}.

Definition withConfig (c : Config) (p : Proxy) : Proxy :=
  mkProxy (name p) c (store p) (fwdrs p) (avail p) (rejectFwdr p)
    (index p) (priority p) (next p).
Definition withStore (h : list Forwarder) (p : Proxy) : Proxy :=
  mkProxy (name p) (config p) h (fwdrs p) (avail p) (rejectFwdr p)
    (index p) (priority p) (next p).
Definition withAvail (a : list ptr) (p : Proxy) : Proxy :=
  mkProxy (name p) (config p) (store p) (fwdrs p) a (rejectFwdr p)
    (index p) (priority p) (next p).
Definition withIndex (i : Z) (p : Proxy) : Proxy :=
  mkProxy (name p) (config p) (store p) (fwdrs p) (avail p) (rejectFwdr p)
    i (priority p) (next p).
Definition withNext (n : scheduler) (p : Proxy) : Proxy :=
  mkProxy (name p) (config p) (store p) (fwdrs p) (avail p) (rejectFwdr p)
    (index p) (priority p) n.

(** [SetPriority] *)
Definition SetPriority (pri : Z) (p : Proxy) : Proxy :=
  mkProxy (name p) (config p) (store p) (fwdrs p) (avail p) (rejectFwdr p)
    (index p) pri (next p).

(** [*f], for a pointer of the group. *)
Definition deref (p : Proxy) (f : ptr) : Forwarder := store p !!! f.

(** The first loop of [init]: the priority of the first enabled
    forwarder, if there is one. *)
Fixpoint firstEnabled (h : list Forwarder) (l : list ptr) : option Z :=
  match l with
  | [] => None
  | f :: l' =>
      if Enabled (h !!! f) then Some (Priority (h !!! f))
      else firstEnabled h l'
  end.

(** [init] traverses [fwdrs] and initialises the available slice. *)
Definition init (p : Proxy) : Proxy :=
  let p :=
    match firstEnabled (store p) (fwdrs p) with
    | Some pri => SetPriority pri p
    | None => p
    end in
  let p :=
    withAvail
      (List.filter
         (λ f, Enabled (deref p f) && (priority p <=? Priority (deref p f))%Z)
         (fwdrs p)) p in
  match avail p with
  | [] => SetPriority 0 p
  | _ => p
  end.

(** The position of the first element of [l] that is [fwdr]. *)
Fixpoint indexOf (fwdr : ptr) (l : list ptr) : option nat :=
  match l with
  | [] => None
  | f :: l' => if Nat.eqb f fwdr then Some 0%nat else S <$> indexOf fwdr l'
  end.

(** [a[i], a = a[len(a)-1], a[:len(a)-1]] *)
Definition swapRemove (i : nat) (a : list ptr) : list ptr :=
  match last a with
  | Some x => take (length a - 1) (<[i := x]> a)
  | None => a
  end.

(** [onStatusChanged] is called when the status of [fwdr] changed. *)
Definition onStatusChanged (fwdr : ptr) (p : Proxy) : Proxy :=
  let p :=
    if Enabled (deref p fwdr) then
      if (Priority (deref p fwdr) =? priority p)%Z
      then withAvail (avail p ++ [fwdr]) p
      else if (priority p <? Priority (deref p fwdr))%Z then init p
      else p
    else
      match indexOf fwdr (avail p) with
      | Some i => withAvail (swapRemove i (avail p)) p
      | None => p
      end in
  match avail p with
  | [] => init p
  | _ => p
  end.

(** A call of an observer with the forwarder as argument. *)
Definition runHandler (h : handler) (fwdr : ptr) (p : Proxy) : Proxy :=
  match h with
  | onStatusChangedOfGroup => onStatusChanged fwdr p
  end.

(** [for _, h := range f.handlers { h(f) }] *)
Definition fire (fwdr : ptr) (p : Proxy) : Proxy :=
  foldl (λ q h, runHandler h fwdr q) p (handlers (deref p fwdr)).

(** Modelled from the spec: [Enable] of a forwarder
    (strategy/forwarder.go is absent).  It flips the flag only when
    the forwarder was disabled and then calls every observer in
    registration order; a redundant call fires nothing.  It resets the
    count of failures. *)
Definition Enable (fwdr : ptr) (p : Proxy) : Proxy :=
  let p :=
    if disabled (deref p fwdr)
    then fire fwdr (withStore (alter (setDisabled false) fwdr (store p)) p)
    else p in
  withStore (alter (setFailures 0) fwdr (store p)) p.

(** Modelled from the spec: [Disable] of a forwarder
    (strategy/forwarder.go is absent).  It flips the flag only when
    the forwarder was enabled and then calls every observer in
    registration order; a redundant call fires nothing. *)
Definition Disable (fwdr : ptr) (p : Proxy) : Proxy :=
  if disabled (deref p fwdr) then p
  else fire fwdr (withStore (alter (setDisabled true) fwdr (store p)) p).

(** Modelled from the spec: [SetLatency], an atomic store
    (strategy/forwarder.go is absent). *)
Definition SetLatency (fwdr : ptr) (ns : Z) (p : Proxy) : Proxy :=
  withStore (alter (setLatency ns) fwdr (store p)) p.

(** *** Construction *)

(** The loop of [NewProxy] over the forwarder URLs; [None] is
    [log.Fatal]. *)
Fixpoint forwardersOf `{ForwarderSource} (s : list string) (c : Config)
  : option (list Forwarder) :=
  match s with
  | [] => Some []
  | chain :: s' =>
      fwdr ← ForwarderFromURL chain (IntFace c)
               (seconds (DialTimeout c)) (seconds (RelayTimeout c));
      rest ← forwardersOf s' c;
      Some (SetMaxFailures (uint32 (MaxFailures c)) fwdr :: rest)
  end.

Definition withStrategy (s : string) (c : Config) : Config :=
  mkConfig s (CheckWebSite c) (CheckInterval c) (CheckTimeout c)
    (CheckDisabledOnly c) (MaxFailures c) (DialTimeout c) (RelayTimeout c)
    (IntFace c) (ForwardTime c) (RejectTime c).
Definition withCheckWebSite (w : string) (c : Config) : Config :=
  mkConfig (Strategy c) w (CheckInterval c) (CheckTimeout c)
    (CheckDisabledOnly c) (MaxFailures c) (DialTimeout c) (RelayTimeout c)
    (IntFace c) (ForwardTime c) (RejectTime c).

(** [priSlice.Less], on the elements *)
Definition Less (h : list Forwarder) (f g : ptr) : bool :=
  (Priority (h !!! g) <? Priority (h !!! f))%Z.

Definition schedulerOf (strategy : string) : scheduler :=
  if String.eqb strategy "rr" then nextRR
  else if String.eqb strategy "ha" then nextHA
  else if String.eqb strategy "lha" then nextLHA
  else if String.eqb strategy "dh" then nextDH
  else nextRR.

(** The last loop of [newProxy]: [f.AddHandler(p.onStatusChanged)]
    for every [f] of the slice. *)
Definition register (l : list ptr) (p : Proxy) : Proxy :=
  foldl (λ q f,
           withStore (alter (AddHandler onStatusChangedOfGroup) f (store q)) q)
    p l.

(** [newProxy]: the new forwarders [fs] are the objects 0 .. n-1 of
    the store and the reject forwarder is the next one. *)
Definition newProxy `{ForwarderSource} `{GoSort}
    (name : string) (fs : list Forwarder) (c : Config) : option Proxy :=
  rejectFwdr ← ForwarderFromURL "reject://" "" 0 0;
  let h := fs ++ [rejectFwdr] in
  let p := mkProxy name c h (sortSort (Less h) (seq 0 (length fs))) []
             (length fs) 0 0 nextRR in
  let p := init p in
  let p :=
    if (strings.IndexByte (CheckWebSite (config p)) ":" =? -1)%Z
    then withConfig
           (withCheckWebSite (CheckWebSite (config p) +:+ ":80") (config p)) p
    else p in
  let p := withNext (schedulerOf (Strategy c)) p in
  Some (register (fwdrs p) p).

(** [NewProxy] returns a new strategy proxy. *)
Definition NewProxy `{ForwarderSource} `{GoSort}
    (name : string) (s : list string) (c : Config) : option Proxy :=
  fs ← forwardersOf s c;
  match fs with
  | [] =>
      (* direct forwarder *)
      newProxy name
        [DirectForwarder (IntFace c)
           (seconds (DialTimeout c)) (seconds (RelayTimeout c))]
        (withStrategy "rr" c)
  | _ => newProxy name fs c
  end.

(** *** Selection *)

(** The result of a call that can end in a run-time panic (a division
    by zero or an index out of range). *)
Inductive pick := Picked (f : ptr) | Panic.

(** [a[i % uint32(len(a))]] for a [uint32] index [i] *)
Definition atMod (a : list ptr) (i : Z) : pick :=
  let n := uint32 (Z.of_nat (length a)) in
  if (n =? 0)%Z then Panic
  else match a !! Z.to_nat (i mod n) with
       | Some f => Picked f
       | None => Panic
       end.

(** [atomic.AddUint32(&p.index, 1)]: the new value *)
Definition addIndex (p : Proxy) : Z := uint32 (index p + 1).

(** Round Robin *)
Definition scheduleRR (dstAddr : string) (p : Proxy) : pick * Proxy :=
  (atMod (avail p) (addIndex p), withIndex (addIndex p) p).

(** High Availability *)
Definition scheduleHA (dstAddr : string) (p : Proxy) : pick * Proxy :=
  (match avail p with f :: _ => Picked f | [] => Panic end, p).

(** Latency based High Availability *)
Definition scheduleLHA (dstAddr : string) (p : Proxy) : pick * Proxy :=
  (match avail p with
   | f0 :: _ =>
       Picked
         (fst (foldl (λ '(fwdr, lowest) f,
                        if (Latency (deref p f) <? lowest)%Z
                        then (f, Latency (deref p f)) else (fwdr, lowest))
                 (f0, Latency (deref p f0)) (avail p)))
   | [] => Panic
   end, p).

(** Destination Hashing *)
Definition scheduleDH (dstAddr : string) (p : Proxy) : pick * Proxy :=
  (atMod (avail p) (fnv.Sum32a dstAddr), p).

Definition callNext (dstAddr : string) (p : Proxy) : pick * Proxy :=
  match next p with
  | nextRR => scheduleRR dstAddr p
  | nextHA => scheduleHA dstAddr p
  | nextLHA => scheduleLHA dstAddr p
  | nextDH => scheduleDH dstAddr p
  end.

(** The admission part of [NextDialer]: the value of [allowed] when
    the locked section is reached. *)
Definition allowedAt (c : Config) (now : Time) : bool :=
  let allowed :=
    match ForwardTime c with
    | [] => true    (* Default is to allow *)
    | _ => existsb (λ forwardTime, Contains forwardTime now) (ForwardTime c)
    end in
  if negb allowed then false
  else negb (existsb (λ rejectTime, Contains rejectTime now) (RejectTime c)).

(** [NextDialer] returns the next dialer; [now] is [time.Now()]. *)
Definition NextDialer (now : Time) (dstAddr : string) (p : Proxy)
  : pick * Proxy :=
  if negb (allowedAt (config p) now) then (Picked (rejectFwdr p), p)
  else
    match avail p with
    | [] => (atMod (fwdrs p) (addIndex p), withIndex (addIndex p) p)
    | _ => callNext dstAddr p
    end.

(** *** Health check *)

(** What the network does in one probe: the dial fails, the write
    fails, the read fails, or four bytes arrive and [time.Since]
    gives [readTime] nanoseconds. *)
Inductive probeIO :=
| dialError
| writeError
| readError
| readDone (buf : string) (readTime : Z).

(** [checkWebSite].  The deadline, which the code sets only
    [if timeout > 0], acts on the connection and so on [io] alone. *)
Definition checkWebSite (io : probeIO) (fwdr : ptr) (website : string)
    (timeout : Z) (p : Proxy) : bool * Proxy :=
  match io with
  | dialError => (false, Disable fwdr p)
  | writeError => (false, Disable fwdr p)
  | readError => (false, Disable fwdr p)
  | readDone buf readTime =>
      if negb (String.eqb "HTTP" buf) then (false, Disable fwdr p)
      else
        let p := SetLatency fwdr readTime p in
        if (timeout <? readTime)%Z then (false, Disable fwdr p)
        else (true, Enable fwdr p)
  end.

(** One turn of the loop of [check], after the sleep: the new [wait],
    the new state of the group, and the result of the probe if one
    was made. *)
Definition checkTurn (io : probeIO) (f : ptr) (wait : Z) (p : Proxy)
  : Z * Proxy * option bool :=
  (* check all forwarders at least one time *)
  if (0 <? wait)%Z && (Priority (deref p f) <? priority p)%Z
  then (wait, p, None)
  else if Enabled (deref p f) && CheckDisabledOnly (config p)
  then (wait, p, None)
  else
    let '(ok, p) := checkWebSite io f (CheckWebSite (config p))
                      (seconds (CheckTimeout (config p))) p in
    if ok then (1%Z, p, Some true)
    else
      let wait := if (wait =? 0)%Z then 1%Z else wait in
      let wait := uint8 (wait * 2) in
      let wait := if (16 <? wait)%Z then 16%Z else wait in
      (wait, p, Some false).

(** The loop of [check] for as many turns as there are probes in
    [ios], from [wait]. *)
Fixpoint checkTurns (ios : list probeIO) (f : ptr) (wait : Z) (p : Proxy)
  : Z * Proxy :=
  match ios with
  | [] => (wait, p)
  | io :: ios' =>
      let '(wait, p, _) := checkTurn io f wait p in
      checkTurns ios' f wait p
  end.

(** [check]: [wait := uint8(0)], then the loop. *)
Definition check (ios : list probeIO) (f : ptr) (p : Proxy) : Z * Proxy :=
  checkTurns ios f 0 p.

(** [Check]: the forwarders for which a [check] is started. *)
Definition Check (p : Proxy) : list ptr :=
  (* no need to check when there's only 1 forwarder *)
  if (1 <? Z.of_nat (length (fwdrs p)))%Z then fwdrs p else [].

(** *** The states of a group *)

(** The states a group goes through once [NewProxy] has returned it:
    status changes of its forwarders (each with its callbacks),
    latency updates, selections, probes and [init]. *)
Inductive reachable `{ForwarderSource} `{GoSort} : Proxy → Prop :=
| reach_NewProxy name s c p :
    NewProxy name s c = Some p → reachable p
| reach_init p :
    reachable p → reachable (init p)
| reach_Enable p f :
    reachable p → (f < length (store p))%nat → reachable (Enable f p)
| reach_Disable p f :
    reachable p → (f < length (store p))%nat → reachable (Disable f p)
| reach_SetLatency p f ns :
    reachable p → reachable (SetLatency f ns p)
| reach_NextDialer p now dstAddr :
    reachable p → reachable (snd (NextDialer now dstAddr p))
| reach_checkWebSite p io f website timeout :
    reachable p → (f < length (store p))%nat →
    reachable (snd (checkWebSite io f website timeout p)).

End strategy.

(** ** Package rule *)

Module rule.

(** Config of a rule dialer. *)
Record Config := mkConfig {
  Name : string;
  Forward : list string;
  StrategyConfig : strategy.Config;
  DNSServers : list string;
  IPSet : string;
  Domain : list string;
  IP : list string;
  CIDR : list string
}.

(** A [*strategy.Proxy] held by the router: the default group, or the
    group made for the rule of that position. *)
Inductive group := defaultGroup | ruleGroup (i : nat).

(** The rule proxy.  The maps hold the rule groups by position in
    [proxies].  A key of [cidrMap] is a fresh [*net.IPNet], so that no
    two entries collide; the entries are listed in the order in which
    [Range] goes through them, which [sync.Map] leaves open. *)
Record Proxy `{GoNet} := mkProxy {
  proxy : strategy.Proxy;
  proxies : list strategy.Proxy;
  domainMap : gmap string nat;
  ipMap : gmap string nat;
  cidrMap : list (netIPNet * nat)
}.

Section router.
Context `{GoUnicode} `{GoNet} `{GoSort} `{strategy.ForwarderSource}.

(** The body of the loop of [NewProxy] for one rule whose group
    [sd] is stored at position [i].  The networks are listed in the
    order of their insertion, which is one of the orders that
    [Range] may take: nothing here is to depend on it. *)
Definition index (i : nat) (r : Config) (rd : Proxy) : Proxy :=
  mkProxy _ (proxy rd) (proxies rd)
    (foldl (λ m domain, <[strings.ToLower domain := i]> m)
       (domainMap rd) (Domain r))
    (foldl (λ m ip, <[ip := i]> m) (ipMap rd) (IP r))
    (foldl (λ l s, match ParseCIDR s with
                    | Some cidr => l ++ [(cidr, i)]
                    | None => l
                    end)
       (cidrMap rd) (CIDR r)).

Fixpoint addRules (rules : list Config) (rd : Proxy) : option Proxy :=
  match rules with
  | [] => Some rd
  | r :: rules' =>
      sd ← strategy.NewProxy (Name r) (Forward r) (StrategyConfig r);
      addRules rules'
        (index (length (proxies rd)) r
           (mkProxy _ (proxy rd) (proxies rd ++ [sd])
              (domainMap rd) (ipMap rd) (cidrMap rd)))
  end.

(** [NewProxy] returns a new rule proxy; [None] is [log.Fatal]. *)
Definition NewProxy (rules : list Config) (proxy : strategy.Proxy)
  : option Proxy :=
  addRules rules (mkProxy _ proxy [] ∅ ∅ []).

(** The loop of [nextProxy] over the domain map, entered with [i];
    [fuel] bounds the number of turns. *)
Inductive found := hit (g : nat) | miss | unfinished.

Fixpoint lookupDomain (fuel : nat) (m : gmap string nat)
    (host : string) (i : Z) : found :=
  match fuel with
  | O => unfinished
  | S fuel' =>
      if (i =? -1)%Z then miss
      else
        let i := strings.LastIndexByte (strings.sliceTo host i) "." in
        match m !! strings.sliceFrom host (i + 1) with
        | Some g => hit g
        | None => lookupDomain fuel' m host i
        end
  end.

(** The first network of [cidrMap] that contains [ip]. *)
Fixpoint rangeCIDR (l : list (netIPNet * nat)) (ip : netIP) : option nat :=
  match l with
  | [] => None
  | (cidr, g) :: l' =>
      if IPNet_Contains cidr ip then Some g else rangeCIDR l' ip
  end.

(** [nextProxy] returns the next proxy according to the rules;
    [None] only if the loop over the domain map were cut short. *)
Definition nextProxy (dstAddr : string) (p : Proxy) : option group :=
  match net.SplitHostPort dstAddr with
  | None => Some defaultGroup
  | Some (host, _) =>
      let byIP :=
        match ParseIP host with
        | Some ip =>
            match ipMap p !! IP_String ip with
            | Some g => Some g
            | None => rangeCIDR (cidrMap p) ip
            end
        | None => None
        end in
      match byIP with
      | Some g => Some (ruleGroup g)
      | None =>
          let host := strings.ToLower host in
          match lookupDomain (String.length host + 2) (domainMap p) host
                  (strings.len host) with
          | hit g => Some (ruleGroup g)
          | miss => Some defaultGroup
          | unfinished => None
          end
      end
  end.

(** The loop of [AddDomainIP], entered with [i]: the IP map after
    it; [fuel] bounds the number of turns. *)
Fixpoint storeDomainIP (fuel : nat) (dm : gmap string nat)
    (domain ip : string) (im : gmap string nat) (i : Z)
  : option (gmap string nat) :=
  match fuel with
  | O => None
  | S fuel' =>
      if (i =? -1)%Z then Some im
      else
        let i := strings.LastIndexByte (strings.sliceTo domain i) "." in
        let im :=
          match dm !! strings.sliceFrom domain (i + 1) with
          | Some dialer => <[ip := dialer]> im
          | None => im
          end in
        storeDomainIP fuel' dm domain ip im i
  end.

(** [AddDomainIP] updates the IP map according to the domain map;
    [None] only if the loop were cut short. *)
Definition AddDomainIP (domain ip : string) (p : Proxy) : option Proxy :=
  if String.eqb ip "" then Some p
  else
    let domain := strings.ToLower domain in
    im ← storeDomainIP (String.length domain + 2) (domainMap p) domain ip
           (ipMap p) (strings.len domain);
    Some (mkProxy _ (proxy p) (proxies p) (domainMap p) im (cidrMap p)).

(** The group behind the pointer that [nextProxy] returns. *)
Definition groupAt (g : group) (p : Proxy) : option strategy.Proxy :=
  match g with
  | defaultGroup => Some (proxy p)
  | ruleGroup i => proxies p !! i
  end.

Definition withGroup (g : group) (sp : strategy.Proxy) (p : Proxy) : Proxy :=
  match g with
  | defaultGroup =>
      mkProxy _ sp (proxies p) (domainMap p) (ipMap p) (cidrMap p)
  | ruleGroup i =>
      mkProxy _ (proxy p) (<[i := sp]> (proxies p)) (domainMap p) (ipMap p)
        (cidrMap p)
  end.

(** [NextDialer] returns the next dialer according to the rules:
    [p.nextProxy(dstAddr).NextDialer(dstAddr)], at the instant
    [now].  [None] only if the loop of [nextProxy] were cut short or
    its result were no group of the router. *)
Definition NextDialer (now : timewindow.Time) (dstAddr : string) (p : Proxy)
  : option (strategy.pick * Proxy) :=
  g ← nextProxy dstAddr p;
  sp ← groupAt g p;
  let '(r, sp) := strategy.NextDialer now dstAddr sp in
  Some (r, withGroup g sp p).

End router.

End rule.

(** ** What is assumed of the parts taken as given *)

(** [sort.Sort] permutes the slice, and leaves a slice of at most twelve
    elements as it is when [Less] holds between no two of them (in every
    Go release such a slice is sorted by insertion). *)
Class GoSortLaws `{GoSort} : Prop := {
  sortSort_Permutation :
    ∀ (A : Type) (less : A → A → bool) (l : list A), sortSort less l ≡ₚ l;
  sortSort_unordered :
    ∀ (A : Type) (less : A → A → bool) (l : list A),
      (length l ≤ 12)%nat →
      (∀ x y, x ∈ l → y ∈ l → less x y = false) →
      sortSort less l = l
}.


(** A forwarder that was just made has no observer yet. *)
Class ForwarderSourceLaws `{strategy.ForwarderSource} : Prop := {
  ForwarderFromURL_handlers :
    ∀ url intface dialTimeout relayTimeout f,
      strategy.ForwarderFromURL url intface dialTimeout relayTimeout = Some f →
      strategy.handlers f = [];
  DirectForwarder_handlers :
    ∀ intface dialTimeout relayTimeout,
      strategy.handlers
        (strategy.DirectForwarder intface dialTimeout relayTimeout) = []
}.

(** ** Instances to run the definitions on *)

Module sample.

(** The tables are not consulted on ASCII input; here the other input
    is handled like ASCII. *)
Definition asciiOnly : GoUnicode := {|
  unicodeToUpper := strings.mapBytes strings.upperByte;
  unicodeToLower := strings.mapBytes strings.lowerByte;
  unicodeFields := strings.fieldsFrom ""
|}.

(** [insertionSort] of package sort: the element at [i] moves to the
    left while it is [Less] than its left neighbour.  The part already
    sorted is kept reversed. *)
Fixpoint sink {A : Type} (less : A → A → bool) (x : A) (left : list A)
  : list A :=
  match left with
  | [] => [x]
  | y :: left' => if less x y then y :: sink less x left' else x :: left
  end.

Definition insertionSort {A : Type} (less : A → A → bool) (l : list A)
  : list A :=
  rev (foldl (λ left x, sink less x left) [] l).

Definition bySort : GoSort := {| sortSort := @insertionSort |}.

(** The IPv4 part of package net: dotted-quad addresses as four
    octets, networks as the masked address and the mask.  An IPv6
    literal is not recognised. *)
Definition big : Z := 16777215.

(** [dtoi]: the number and the rest of the string *)
Fixpoint dtoi (n : Z) (i : nat) (s : string) : option (Z * string) :=
  match s with
  | String c s' =>
      match strconv.digitVal c with
      | Some d =>
          let n := (n * 10 + d)%Z in
          if (big <=? n)%Z then None else dtoi n (S i) s'
      | None => if Nat.eqb i 0 then None else Some (n, s)
      end
  | EmptyString => if Nat.eqb i 0 then None else Some (n, s)
  end.

Fixpoint octets (k : nat) (first : bool) (s : string) : option (list Z) :=
  match k with
  | O => match s with EmptyString => Some [] | _ => None end
  | S k' =>
      s ← (if first then Some s
           else match s with String "." s' => Some s' | _ => None end);
      '(n, rest) ← dtoi 0 0 s;
      if (255 <? n)%Z then None else (n ::.) <$> octets k' false rest
  end.

Definition parseIPv4 (s : string) : option (list Z) := octets 4 true s.

Fixpoint scanIP (s0 s : string) : option (list Z) :=
  match s with
  | EmptyString => None
  | String "." _ => parseIPv4 s0
  | String ":" _ => None
  | String _ s' => scanIP s0 s'
  end.

Definition ipString (ip : list Z) : string :=
  match ip with
  | [a; b; c; d] => fmt.d a +:+ "." +:+ fmt.d b +:+ "." +:+ fmt.d c +:+ "." +:+ fmt.d d
  | _ => "?"
  end.

(** [CIDRMask(n, 32)], by octet *)
Definition maskOctet (n : Z) (k : Z) : Z :=
  let bits := Z.max 0 (Z.min 8 (n - 8 * k)) in (256 - 2 ^ (8 - bits))%Z.
Definition CIDRMask (n : Z) : list Z :=
  [maskOctet n 0; maskOctet n 1; maskOctet n 2; maskOctet n 3].

Definition parseCIDR (s : string) : option (list Z * list Z) :=
  let i := strings.IndexByte s "/" in
  if (i <? 0)%Z then None
  else
    ip ← parseIPv4 (strings.sliceTo s i);
    '(n, rest) ← dtoi 0 0 (strings.sliceFrom s (i + 1));
    match rest with
    | EmptyString =>
        if (32 <? n)%Z then None
        else Some (zip_with Z.land ip (CIDRMask n), CIDRMask n)
    | _ => None
    end.

Definition contains (n : list Z * list Z) (ip : list Z) : bool :=
  bool_decide (zip_with Z.land (fst n) (snd n) = zip_with Z.land ip (snd n)).

Definition ipv4 : GoNet := {|
  netIP := list Z;
  netIPNet := list Z * list Z;
  ParseIP := λ s, scanIP s s;
  IP_String := ipString;
  ParseCIDR := parseCIDR;
  IPNet_Contains := contains
|}.

(** A source of forwarders: every URL gives an enabled forwarder of
    that address, with the priority written after the last [#] (0 if
    there is none) and no observer. *)
Definition priorityOf (url : string) : Z :=
  let i := strings.LastIndexByte url "#" in
  if (i <? 0)%Z then 0%Z
  else default 0%Z (strconv.Atoi (strings.sliceFrom url (i + 1))).

Definition urls : strategy.ForwarderSource := {|
  strategy.ForwarderFromURL := λ url _ _ _,
    Some (strategy.mkForwarder url (priorityOf url) false 0 0 0 []);
  strategy.DirectForwarder := λ _ _ _,
    strategy.mkForwarder "DIRECT" 0 false 0 0 0 []
|}.

Definition config : strategy.Config :=
  strategy.mkConfig "rr" "www.apple.com" 30 10 false 3 3 0 "" [] [].

Definition NewProxy := @strategy.NewProxy urls bySort.

Definition noProxy : strategy.Proxy :=
  strategy.mkProxy "" config [] [] [] 0 0 0 strategy.nextRR.

(** The group of two forwarders [A] and [B] of priority 0, as
    [NewProxy] returns it. *)
Definition groupAB : strategy.Proxy :=
  Eval vm_compute in default noProxy (NewProxy "g" ["A"; "B"] config).

(** The same group behind time windows: forward on Monday from 09:00
    to 17:00, reject on Monday from 12:00 to 13:00. *)
Definition configWindows : strategy.Config :=
  strategy.mkConfig "rr" "www.apple.com" 30 10 false 3 3 0 ""
    [timewindow.mkTimeWindow 1 1 9 0 17 0]
    [timewindow.mkTimeWindow 1 1 12 0 13 0].

Definition groupWindows : strategy.Proxy :=
  Eval vm_compute in
    default noProxy (NewProxy "w" ["A"; "B"] configWindows).

(** The same with three forwarders. *)
Definition groupABC : strategy.Proxy :=
  Eval vm_compute in default noProxy (NewProxy "g" ["A"; "B"; "C"] config).

(** A group of two tiers: [A] of priority 1, [B] and [C] of
    priority 2. *)
Definition groupTiers : strategy.Proxy :=
  Eval vm_compute in
    default noProxy (NewProxy "t" ["A#1"; "B#2"; "C#2"] config).

(** Two rules, on the domains [example.com] and [api.example.com]. *)
Definition R1 : rule.Config :=
  rule.mkConfig "R1" ["socks5://r1:1080"] config [] "" ["example.com"] [] [].
Definition R2 : rule.Config :=
  rule.mkConfig "R2" ["socks5://r2:1080"] config [] "" ["api.example.com"] [] [].

Definition router : option (@rule.Proxy ipv4) :=
  D ← NewProxy "default" [] config;
  @rule.NewProxy asciiOnly ipv4 bySort urls [R1; R2] D.

Definition nextProxy := @rule.nextProxy asciiOnly ipv4.

(** The default group of [router], a direct forwarder, and the router
    itself. *)
Definition groupDirect : strategy.Proxy :=
  Eval vm_compute in default noProxy (NewProxy "default" [] config).

Definition noRouter : @rule.Proxy ipv4 :=
  rule.mkProxy ipv4 noProxy [] ∅ ∅ [].

Definition routerR1R2 : @rule.Proxy ipv4 := default noRouter router.

(** The router once [10.0.0.1] is known as the address of
    [x.api.example.com]. *)
Definition routerLearnt : @rule.Proxy ipv4 :=
  default noRouter
    (@rule.AddDomainIP asciiOnly ipv4 "x.api.example.com" "10.0.0.1"
       routerR1R2).

End sample.


(** ** Definitions that the proofs use *)

Module support.
Import timewindow.

(** No byte of the string is ASCII white space. *)
Fixpoint noSpace (s : string) : bool :=
  match s with
  | EmptyString => true
  | String c s' => negb (strings.asciiSpace c) && noSpace s'
  end.

(** A word of [Fields]: ASCII, not empty, without white space. *)
Definition word (s : string) : bool :=
  strings.isASCII s && noSpace s && negb (String.eqb s "").

(** The integers [lo], [lo+1], .. (n of them). *)
Definition zrange (lo : Z) (n : nat) : list Z :=
  map (λ i, (lo + Z.of_nat i)%Z) (seq 0 n).

(** The days field of [String] is a word that [parseDaysOfWeek] reads back. *)
Definition okDays `{GoUnicode} (f t : Z) : bool :=
  match daysOfWeekString (mkTimeWindow f t 0 0 0 0) with
  | Some ds => bool_decide (parseDaysOfWeek ds = Some (f, t)) && word ds
  | None => false
  end.

(** A time field of [String] is a word that [parseTime] reads back. *)
Definition okTime (h m : Z) : bool :=
  let ts := fmt.d02 h +:+ ":" +:+ fmt.d02 m in
  bool_decide (parseTime ts = Some (h, m)) && word ts.

(** A forwarder that the group may select: enabled, and of the active
    priority at least. *)
Definition live (p : strategy.Proxy) (f : strategy.ptr) : Prop :=
  strategy.Enabled (strategy.deref p f) = true
  ∧ (strategy.priority p ≤ strategy.Priority (strategy.deref p f))%Z.

(** The shape of a group: its forwarders are distinct objects, each
    with the group's callback as its only observer; no other object
    has an observer; the reject forwarder is not one of them; the
    available forwarders are distinct forwarders of the group. *)
Record wellFormed (p : strategy.Proxy) : Prop := mkWellFormed {
  wf_nonempty : strategy.fwdrs p ≠ [];
  wf_fwdrs_NoDup : NoDup (strategy.fwdrs p);
  wf_handlers : ∀ f,
    strategy.handlers (strategy.deref p f)
    = if decide (f ∈ strategy.fwdrs p)
      then [strategy.onStatusChangedOfGroup] else [];
  wf_reject : strategy.rejectFwdr p ∉ strategy.fwdrs p;
  wf_avail_fwdrs : ∀ f, f ∈ strategy.avail p → f ∈ strategy.fwdrs p;
  wf_avail_NoDup : NoDup (strategy.avail p)
}.

Definition groupInv (p : strategy.Proxy) : Prop :=
  wellFormed p ∧ ∀ f, f ∈ strategy.avail p → live p f.

(** Calls of [NextDialer] one after the other, one at each of the
    instants [nows]: what they return. *)
Fixpoint NextDialers (nows : list Time) (dstAddr : string)
    (p : strategy.Proxy) : list strategy.pick :=
  match nows with
  | [] => []
  | now :: nows' =>
      let '(r, q) := strategy.NextDialer now dstAddr p in
      r :: NextDialers nows' dstAddr q
  end.

(** The suffixes of a host name that start after one of its dots,
    from the longest to the shortest. *)
Fixpoint afterDots (s : string) : list string :=
  match s with
  | EmptyString => []
  | String c s' =>
      if Ascii.eqb c "." then s' :: afterDots s' else afterDots s'
  end.

(** The dot-suffixes of a host name, from the longest (the name
    itself) to the shortest: for [a.b.example.com] they are
    [a.b.example.com], [b.example.com], [example.com], [com]. *)
Definition dotSuffixes (host : string) : list string :=
  host :: afterDots host.

(** The value of the first of the keys that the map has. *)
Fixpoint firstHit (m : gmap string nat) (keys : list string) : option nat :=
  match keys with
  | [] => None
  | k :: keys' =>
      match m !! k with
      | Some g => Some g
      | None => firstHit m keys'
      end
  end.

Definition foundOf (g : option nat) : rule.found :=
  match g with
  | Some i => rule.hit i
  | None => rule.miss
  end.

Definition groupOf (g : option nat) : rule.group :=
  match g with
  | Some i => rule.ruleGroup i
  | None => rule.defaultGroup
  end.

(** The keys that the loop of [nextProxy] tries when it is entered
    with [i]: the suffixes after the dots at the positions below [i],
    from the right to the left, and then the host name itself. *)
Fixpoint keysBelow (host : string) (i : nat) : list string :=
  match i with
  | O => [host]
  | S i' =>
      match String.get i' host with
      | Some c =>
          if Ascii.eqb c "." then strings.dropN i host :: keysBelow host i'
          else keysBelow host i'
      | None => keysBelow host i'
      end
  end.

(** The day of the week that [Contains] compares: Sunday is 7. *)
Definition dayOf (t : Time) : Z :=
  if (Weekday t =? 0)%Z then 7%Z else Weekday t.

(** Every byte of the string is ASCII white space. *)
Fixpoint allSpace (s : string) : bool :=
  match s with
  | EmptyString => true
  | String c s' => strings.asciiSpace c && allSpace s'
  end.

(** The calls of [Set] that the flag parser makes for the values
    [vals] of one flag, in their order. *)
Fixpoint SetAll `{GoUnicode} (vals : list string)
    (s : gliderflag.timeWindowSliceValue)
  : option gliderflag.timeWindowSliceValue :=
  match vals with
  | [] => Some s
  | val :: vals' => s' ← gliderflag.Set_ val s; SetAll vals' s'
  end.








(** [f] is the first of the forwarders [l] whose latency is the
    lowest. *)
Definition firstLowest (p : strategy.Proxy) (l : list strategy.ptr)
    (f : strategy.ptr) : Prop :=
  ∃ i : nat,
    l !! i = Some f
    ∧ (∀ g, g ∈ l →
         (strategy.Latency (strategy.deref p f)
          ≤ strategy.Latency (strategy.deref p g))%Z)
    ∧ ∀ (j : nat) g, (j < i)%nat → l !! j = Some g →
         (strategy.Latency (strategy.deref p f)
          < strategy.Latency (strategy.deref p g))%Z.

(** One pass of the loop of [AddDomainIP] over a key. *)
Definition storeIP (dm : gmap string nat) (ip : string)
    (im : gmap string nat) (k : string) : gmap string nat :=
  match dm !! k with
  | Some dialer => <[ip := dialer]> im
  | None => im
  end.

(** Every entry of the maps of a router is one of its rule groups. *)
Definition validRouter `{GoNet} (p : rule.Proxy) : Prop :=
  (∀ k i, rule.domainMap p !! k = Some i → (i < length (rule.proxies p))%nat)
  ∧ (∀ k i, rule.ipMap p !! k = Some i → (i < length (rule.proxies p))%nat)
  ∧ ∀ c i, (c, i) ∈ rule.cidrMap p → (i < length (rule.proxies p))%nat.

(** A group in one of its states, of fewer than 2^32 forwarders. *)
Definition groupOK `{strategy.ForwarderSource} `{GoSort}
    (sp : strategy.Proxy) : Prop :=
  strategy.reachable sp
  ∧ (Z.of_nat (length (strategy.fwdrs sp)) < 2 ^ 32)%Z.

(** A router whose groups are such and whose maps refer to them. *)
Definition routerOK `{GoNet} `{strategy.ForwarderSource} `{GoSort}
    (p : rule.Proxy) : Prop :=
  groupOK (rule.proxy p) ∧ Forall groupOK (rule.proxies p) ∧ validRouter p.

(** The decimal digit [n], for [n] from 0 to 9. *)
Definition digitChar (n : Z) : ascii := ascii_of_nat (48 + Z.to_nat n).

(** Two decimal digits, the tens first: [HH] or [MM]. *)
Definition twoDigits (n : Z) : string :=
  String (digitChar (n / 10)) (String (digitChar (n mod 10)) "").

(** The three-letter name of a day, from 1 for Monday to 7 for
    Sunday. *)
Definition dayName (day : Z) : string :=
  if (day =? 1)%Z then "MON"
  else if (day =? 2)%Z then "TUE"
  else if (day =? 3)%Z then "WED"
  else if (day =? 4)%Z then "THU"
  else if (day =? 5)%Z then "FRI"
  else if (day =? 6)%Z then "SAT"
  else "SUN".

(** The days of a window as the design document writes them: the name
    of the day for a single day, [N-M] for a range. *)
Definition daysField (fromDay toDay : Z) : string :=
  if (fromDay =? toDay)%Z then dayName fromDay
  else String (digitChar fromDay) (String "-" (String (digitChar toDay) "")).

(** The text of a window as the design document describes it: the
    days, then the two times as zero-padded [HH:MM], with one blank
    between the three.  It is written without the functions of
    [String], to be compared with them. *)
Definition canonicalText (w : TimeWindow) : string :=
  daysField (FromDay w) (ToDay w) +:+ " "
  +:+ twoDigits (FromHour w) +:+ ":" +:+ twoDigits (FromMin w) +:+ " "
  +:+ twoDigits (ToHour w) +:+ ":" +:+ twoDigits (ToMin w).

(** The values of [wait] in the loop of [check]. *)
Definition waitValue (w : Z) : Prop :=
  (w = 0 ∨ w = 1 ∨ w = 2 ∨ w = 4 ∨ w = 8 ∨ w = 16)%Z.

End support.

Local Open Scope Z_scope.
Import support.

(** * Properties *)

(** ** Strings *)

Section string_facts.

Lemma append_cons x (a b : string) : String x a +:+ b = String x (a +:+ b).
Proof. reflexivity. Qed.

Lemma append_empty_l (b : string) : "" +:+ b = b.
Proof. reflexivity. Qed.

Lemma append_assoc (a b c : string) : (a +:+ b) +:+ c = a +:+ (b +:+ c).
Proof.
  induction a as [|x a IH]; [done|].
  rewrite !append_cons. by rewrite IH.
Qed.

Lemma append_empty_r (a : string) : a +:+ "" = a.
Proof.
  induction a as [|x a IH]; [done|].
  rewrite append_cons. by rewrite IH.
Qed.

Lemma isASCII_append a b :
  strings.isASCII (a +:+ b) = strings.isASCII a && strings.isASCII b.
Proof.
  induction a as [|x a IH]; [done|].
  rewrite append_cons. simpl. rewrite IH. by rewrite andb_assoc.
Qed.

Lemma fieldsFrom_noSpace a cur rest :
  noSpace a = true →
  strings.fieldsFrom cur (a +:+ rest) = strings.fieldsFrom (cur +:+ a) rest.
Proof.
  revert cur. induction a as [|x a IH]; intros cur Ha.
  - by rewrite append_empty_r.
  - simpl in Ha. apply andb_prop in Ha as [Hx Ha].
    apply negb_true_iff in Hx.
    rewrite append_cons. simpl. rewrite Hx.
    rewrite IH by done. by rewrite append_assoc.
Qed.

Lemma eqb_empty_false (a : string) :
  a ≠ "" → String.eqb a "" = false.
Proof. intros Ha. by apply String.eqb_neq. Qed.

(** [Fields] on three words, each followed by one blank but the last. *)
Lemma fieldsFrom_three a b c :
  noSpace a = true → noSpace b = true → noSpace c = true →
  a ≠ "" → b ≠ "" → c ≠ "" →
  strings.fieldsFrom "" (a +:+ " " +:+ b +:+ " " +:+ c) = [a; b; c].
Proof.
  intros Ha Hb Hc Na Nb Nc.
  rewrite fieldsFrom_noSpace by done.
  rewrite append_empty_l, append_cons, append_empty_l. simpl.
  rewrite (eqb_empty_false a) by done.
  rewrite fieldsFrom_noSpace by done.
  rewrite append_empty_l, append_cons, append_empty_l. simpl.
  rewrite (eqb_empty_false b) by done.
  rewrite <- (append_empty_r c) at 1.
  rewrite fieldsFrom_noSpace by done.
  rewrite append_empty_l. simpl.
  by rewrite (eqb_empty_false c).
Qed.

Lemma isASCII_three a b c :
  strings.isASCII a = true → strings.isASCII b = true →
  strings.isASCII c = true →
  strings.isASCII (a +:+ " " +:+ b +:+ " " +:+ c) = true.
Proof.
  intros Ha Hb Hc.
  rewrite (isASCII_append a), (isASCII_append " "), (isASCII_append b),
    (isASCII_append " "), Ha, Hb, Hc.
  reflexivity.
Qed.

End string_facts.

(** Checking a property of the integers of an interval by running it. *)
Lemma zrange_forallb (P : Z → bool) lo n :
  forallb P (zrange lo n) = true →
  ∀ z, lo ≤ z < lo + Z.of_nat n → P z = true.
Proof.
  intros HP z Hz.
  rewrite forallb_forall in HP. apply HP.
  unfold zrange. apply in_map_iff.
  exists (Z.to_nat (z - lo)). split; [lia|].
  apply in_seq. lia.
Qed.

(** ** Time windows *)

Section timewindow_facts.
Context `{GoUnicode}.
Import timewindow.

Lemma okDays_all f t : 1 ≤ f ≤ 7 → 1 ≤ t ≤ 7 → okDays f t = true.
Proof.
  intros Hf Ht.
  assert (forallb (λ f, forallb (okDays f) (zrange 1 7)) (zrange 1 7) = true)
    as Hall by (vm_compute; reflexivity).
  apply (zrange_forallb _ 1 7 (zrange_forallb _ 1 7 Hall f ltac:(lia)) t).
  lia.
Qed.

Lemma okTime_all h m : 0 ≤ h ≤ 23 → 0 ≤ m ≤ 59 → okTime h m = true.
Proof.
  intros Hh Hm.
  assert (forallb (λ h, forallb (okTime h) (zrange 0 60)) (zrange 0 24) = true)
    as Hall by (vm_compute; reflexivity).
  apply (zrange_forallb _ 0 60 (zrange_forallb _ 0 24 Hall h ltac:(lia)) m).
  lia.
Qed.

Lemma word_inv s :
  word s = true → strings.isASCII s = true ∧ noSpace s = true ∧ s ≠ "".
Proof.
  unfold word. intros [[? ?]%andb_prop Hne]%andb_prop.
  repeat split; [done..|].
  apply negb_true_iff in Hne. by apply String.eqb_neq.
Qed.

Lemma parseDaysOfWeek_bounds s f t :
  parseDaysOfWeek s = Some (f, t) → 1 ≤ f ≤ 7 ∧ 1 ≤ t ≤ 7.
Proof.
  unfold parseDaysOfWeek.
  do 7 (case_match; [intros [= <- <-]; lia|]).
  destruct (strings.Split s "-") as [|d0 [|d1 [|? ?]]]; try done.
  case_match; [done|].
  destruct (strconv.Atoi d0) as [from|]; [|done].
  destruct (strconv.Atoi d1) as [to|]; [|done]. simpl.
  case_match eqn:Hc; [done|].
  intros [= <- <-]. repeat (apply orb_false_elim in Hc as [Hc ?]). lia.
Qed.

Lemma parseTime_bounds s h m :
  parseTime s = Some (h, m) → 0 ≤ h ≤ 23 ∧ 0 ≤ m ≤ 59.
Proof.
  unfold parseTime.
  destruct (strings.Split s ":") as [|t0 [|t1 [|? ?]]]; try done.
  case_match; [done|].
  destruct (strconv.Atoi t0) as [hour|]; [|done].
  destruct (strconv.Atoi t1) as [min|]; [|done]. simpl.
  case_match eqn:Hc; [done|].
  intros [= <- <-]. repeat (apply orb_false_elim in Hc as [Hc ?]). lia.
Qed.

Lemma String_grouping ds a b c e :
  ds +:+ " " +:+ a +:+ ":" +:+ b +:+ " " +:+ c +:+ ":" +:+ e
  = ds +:+ " " +:+ (a +:+ ":" +:+ b) +:+ " " +:+ (c +:+ ":" +:+ e).
Proof. by rewrite !append_assoc. Qed.

(** C8, as the code has it: the fields of a parsed window are in
    range; nothing orders [FromDay] and [ToDay]. *)
Theorem Parse_in_range s w :
  Parse s = Some w →
  1 ≤ FromDay w ≤ 7 ∧ 1 ≤ ToDay w ≤ 7 ∧
  0 ≤ FromHour w ≤ 23 ∧ 0 ≤ ToHour w ≤ 23 ∧
  0 ≤ FromMin w ≤ 59 ∧ 0 ≤ ToMin w ≤ 59.
Proof.
  unfold Parse.
  destruct (strings.Fields s) as [|f0 [|f1 [|f2 [|? ?]]]]; try done.
  destruct (parseDaysOfWeek f0) as [[fromDay toDay]|] eqn:Hd; [|done].
  destruct (parseTime f1) as [[fromHour fromMin]|] eqn:H1; [|done].
  destruct (parseTime f2) as [[toHour toMin]|] eqn:H2; [|done].
  intros [= <-]. simpl.
  apply parseDaysOfWeek_bounds in Hd.
  apply parseTime_bounds in H1, H2. lia.
Qed.

(** [Parse] reads back what [String] writes, for every window whose
    fields are in range. *)
Lemma String_read_back w :
  1 ≤ FromDay w ≤ 7 → 1 ≤ ToDay w ≤ 7 →
  0 ≤ FromHour w ≤ 23 → 0 ≤ ToHour w ≤ 23 →
  0 ≤ FromMin w ≤ 59 → 0 ≤ ToMin w ≤ 59 →
  ∃ s, String_ w = Some s ∧ Parse s = Some w.
Proof.
  destruct w as [fd td fh fm th tm]. simpl.
  intros Hfd Htd Hfh Hth Hfm Htm.
  pose proof (okDays_all fd td Hfd Htd) as Hdays.
  pose proof (okTime_all fh fm Hfh Hfm) as Hfrom.
  pose proof (okTime_all th tm Hth Htm) as Hto.
  unfold okDays in Hdays. unfold String_.
  change (daysOfWeekString (mkTimeWindow fd td fh fm th tm))
    with (daysOfWeekString (mkTimeWindow fd td 0 0 0 0)).
  destruct (daysOfWeekString (mkTimeWindow fd td 0 0 0 0)) as [ds|]; [|done].
  apply andb_prop in Hdays as [Hpd [Ad [Sd Nd]]%word_inv].
  apply andb_prop in Hfrom as [Hpf [Af [Sf Nf]]%word_inv].
  apply andb_prop in Hto as [Hpt [At [St Nt]]%word_inv].
  apply bool_decide_eq_true in Hpd, Hpf, Hpt.
  eexists. split; [reflexivity|]. simpl.
  rewrite String_grouping. unfold Parse, strings.Fields.
  rewrite isASCII_three by done.
  rewrite fieldsFrom_three by done.
  rewrite Hpd. simpl. rewrite Hpf. simpl. by rewrite Hpt.
Qed.

(** [%02d] writes two digits, the tens first. *)
Lemma d02_twoDigits n : 0 ≤ n ≤ 59 → fmt.d02 n = twoDigits n.
Proof.
  intros Hn.
  assert (forallb (λ n, bool_decide (fmt.d02 n = twoDigits n)) (zrange 0 60)
          = true) as Hall by (vm_compute; reflexivity).
  pose proof (zrange_forallb _ 0 60 Hall n ltac:(lia)) as Hb.
  by apply bool_decide_eq_true in Hb.
Qed.

(** The days of [String]: the name of a single day, [N-M] for two
    days that differ. *)
Lemma daysOfWeekString_daysField w :
  1 ≤ FromDay w ≤ 7 → 1 ≤ ToDay w ≤ 7 →
  daysOfWeekString w = Some (daysField (FromDay w) (ToDay w)).
Proof.
  destruct w as [fd td fh fm th tm]. simpl. intros Hf Ht.
  change (daysOfWeekString (mkTimeWindow fd td fh fm th tm))
    with (daysOfWeekString (mkTimeWindow fd td 0 0 0 0)).
  assert (forallb
            (λ f, forallb
                    (λ t, bool_decide
                            (daysOfWeekString (mkTimeWindow f t 0 0 0 0)
                             = Some (daysField f t)))
                    (zrange 1 7)) (zrange 1 7) = true)
    as Hall by (vm_compute; reflexivity).
  pose proof (zrange_forallb _ 1 7
                (zrange_forallb _ 1 7 Hall fd ltac:(lia)) td ltac:(lia))
    as Hb.
  by apply bool_decide_eq_true in Hb.
Qed.

(** C9: for every window whose fields are in range, [String] writes
    the text that the design document describes (the three-letter
    name of the day for a single day, [N-M] for a range of days, the
    times as zero-padded [HH:MM]) and [Parse] reads the window back
    from it. *)
Theorem String_then_Parse w :
  1 ≤ FromDay w ≤ 7 → 1 ≤ ToDay w ≤ 7 →
  0 ≤ FromHour w ≤ 23 → 0 ≤ ToHour w ≤ 23 →
  0 ≤ FromMin w ≤ 59 → 0 ≤ ToMin w ≤ 59 →
  String_ w = Some (canonicalText w) ∧ Parse (canonicalText w) = Some w.
Proof.
  intros Hfd Htd Hfh Hth Hfm Htm.
  assert (String_ w = Some (canonicalText w)) as Htext.
  { unfold String_, canonicalText.
    rewrite daysOfWeekString_daysField by done.
    rewrite !d02_twoDigits by lia. reflexivity. }
  split; [done|].
  destruct (String_read_back w Hfd Htd Hfh Hth Hfm Htm) as (s & Hs & Hparse).
  rewrite Htext in Hs. by injection Hs as <-.
Qed.

End timewindow_facts.

(** C8 as stated fails: the days field [5-1] is accepted, and the
    window has [FromDay > ToDay]. *)
Lemma Parse_days_unordered :
  ∃ w, @timewindow.Parse sample.asciiOnly "5-1 00:00 23:59" = Some w
       ∧ ¬ (timewindow.FromDay w ≤ timewindow.ToDay w).
Proof.
  exists (timewindow.mkTimeWindow 5 1 0 0 23 59).
  split; [reflexivity | simpl; lia].
Qed.

Lemma Parse_in_range_witness :
  @timewindow.Parse sample.asciiOnly "mon 09:00 17:30"
    = Some (timewindow.mkTimeWindow 1 1 9 0 17 30)
  ∧ 1 ≤ 1 ≤ 7 ∧ 1 ≤ 1 ≤ 7 ∧ 0 ≤ 9 ≤ 23 ∧ 0 ≤ 17 ≤ 23 ∧ 0 ≤ 0 ≤ 59 ∧ 0 ≤ 30 ≤ 59.
Proof.
  split; [reflexivity|].
  apply (@Parse_in_range sample.asciiOnly "mon 09:00 17:30"
           (timewindow.mkTimeWindow 1 1 9 0 17 30)).
  reflexivity.
Defined.

(** A single day with a minute below ten, and a range of days. *)
Lemma String_then_Parse_witness :
  (timewindow.String_ (timewindow.mkTimeWindow 1 1 9 5 17 30)
   = Some "MON 09:05 17:30"
   ∧ @timewindow.Parse sample.asciiOnly "MON 09:05 17:30"
     = Some (timewindow.mkTimeWindow 1 1 9 5 17 30))
  ∧ (timewindow.String_ (timewindow.mkTimeWindow 1 5 0 0 23 59)
     = Some "1-5 00:00 23:59"
     ∧ @timewindow.Parse sample.asciiOnly "1-5 00:00 23:59"
       = Some (timewindow.mkTimeWindow 1 5 0 0 23 59)).
Proof.
  split.
  - apply (@String_then_Parse sample.asciiOnly
             (timewindow.mkTimeWindow 1 1 9 5 17 30)); simpl; lia.
  - apply (@String_then_Parse sample.asciiOnly
             (timewindow.mkTimeWindow 1 5 0 0 23 59)); simpl; lia.
Defined.

(** ** The health check *)

Section check_facts.
Import strategy.

Lemma uint8_small n : 0 ≤ n < 256 → uint8 n = n.
Proof. intros Hn. unfold uint8. by rewrite Z.mod_small. Qed.

(** C7, as the code has it: after a probe that succeeded [wait] is 1;
    after one that failed it is twice [max 1 wait], at most 16. *)
Theorem checkTurn_wait io f wait p wait' p' ok :
  0 ≤ wait ≤ 127 →
  checkTurn io f wait p = (wait', p', Some ok) →
  wait' = if ok then 1 else Z.min 16 (2 * Z.max 1 wait).
Proof.
  intros Hw. unfold checkTurn.
  case_match; [done|]. case_match; [done|].
  destruct (checkWebSite _ _ _ _ _) as [[] q]; intros [= <- <- <-]; [done|].
  destruct (Z.eqb_spec wait 0) as [->|Hne]; [done|].
  rewrite uint8_small by lia.
  destruct (Z.ltb_spec 16 (wait * 2)); lia.
Qed.

Lemma waitValue_checkTurn io f wait p :
  waitValue wait → waitValue (checkTurn io f wait p).1.1.
Proof.
  intros Hw. unfold checkTurn.
  case_match; [done|]. case_match; [done|].
  destruct (checkWebSite _ _ _ _ _) as [[] q]; simpl.
  - unfold waitValue. lia.
  - unfold waitValue in *.
    destruct Hw as [->|[->|[->|[->|[->| ->]]]]]; vm_compute; tauto.
Qed.

Lemma waitValue_checkTurns ios f wait p :
  waitValue wait → waitValue (checkTurns ios f wait p).1.
Proof.
  revert wait p. induction ios as [|io ios IH]; intros wait p Hw; [done|].
  simpl. pose proof (waitValue_checkTurn io f wait p Hw) as Hw'.
  destruct (checkTurn io f wait p) as [[w q] r]. by apply IH.
Qed.

Lemma waitValue_check ios f p : waitValue (check ios f p).1.
Proof. apply waitValue_checkTurns. by left. Qed.

(** A probe that read [HTTP]: the only test left is
    [readTime > timeout], whatever the sign of [timeout]. *)
Lemma checkWebSite_HTTP fwdr website timeout readTime p :
  checkWebSite (readDone "HTTP" readTime) fwdr website timeout p
  = if timeout <? readTime
    then (false, Disable fwdr (SetLatency fwdr readTime p))
    else (true, Enable fwdr (SetLatency fwdr readTime p)).
Proof. reflexivity. Qed.

End check_facts.

Lemma groupAB_NewProxy :
  sample.NewProxy "g" ["A"; "B"] sample.config = Some sample.groupAB.
Proof. reflexivity. Qed.

(** C7 as stated fails at the first turn: a failed probe from
    [wait = 0] gives 2, where [max(1, wait*2)] capped at 16 is 1. *)
Lemma checkTurn_first_failure :
  (strategy.checkTurn strategy.dialError 0%nat 0 sample.groupAB).1.1 = 2
  ∧ (strategy.checkTurn strategy.dialError 0%nat 0 sample.groupAB).2 = Some false
  ∧ Z.min 16 (Z.max 1 (0 * 2)) = 1.
Proof. by vm_compute. Qed.

Lemma checkTurn_wait_witness :
  0 ≤ 4 ≤ 127
  ∧ (strategy.checkTurn strategy.readError 1%nat 4 sample.groupAB).2 = Some false
  ∧ (strategy.checkTurn strategy.readError 1%nat 4 sample.groupAB).1.1
    = Z.min 16 (2 * Z.max 1 4).
Proof.
  split; [lia|]. split; [reflexivity|].
  apply (checkTurn_wait strategy.readError 1%nat 4 sample.groupAB _
           (strategy.checkTurn strategy.readError 1%nat 4 sample.groupAB).1.2
           false); [lia | reflexivity].
Defined.

(** C2, at the failing input: with [checktimeout = 0] a probe whose
    dial, write and read succeed and whose four bytes are [HTTP], in one
    millisecond, disables the forwarder and returns false. *)
Theorem checkWebSite_timeout_0 :
  let r := strategy.checkWebSite (strategy.readDone "HTTP" 1000000) 0%nat
             "www.apple.com:80" (strategy.seconds 0) sample.groupAB in
  r.1 = false
  ∧ strategy.Enabled (strategy.deref sample.groupAB 0%nat) = true
  ∧ strategy.Enabled (strategy.deref r.2 0%nat) = false.
Proof. by vm_compute. Qed.

(** ** The groups of forwarders *)

Section store_facts.
Import strategy.

Lemma elem_of_filter_bool {A} (P : A → bool) (l : list A) x :
  x ∈ List.filter P l ↔ P x = true ∧ x ∈ l.
Proof. rewrite !list_elem_of_In, filter_In. tauto. Qed.

Lemma NoDup_filter_bool {A} (P : A → bool) (l : list A) :
  NoDup l → NoDup (List.filter P l).
Proof.
  induction 1 as [|x l Hx Hl IH]; simpl; [constructor|].
  destruct (P x); [|done].
  constructor; [|done]. rewrite elem_of_filter_bool. tauto.
Qed.

(** Reading the store after one object was changed. *)
Lemma deref_alter (g : Forwarder → Forwarder) f p x :
  deref (withStore (alter g f (store p)) p) x
  = if decide (f = x ∧ (f < length (store p))%nat)
    then g (deref p f) else deref p x.
Proof. unfold deref. simpl. apply list_lookup_total_alter. Qed.

End store_facts.

Section group_facts.
Import strategy.

(** Two states that agree on what the invariant reads. *)
Lemma wellFormed_ext p q :
  store q = store p → fwdrs q = fwdrs p → avail q = avail p →
  rejectFwdr q = rejectFwdr p →
  wellFormed p → wellFormed q.
Proof.
  intros Hs Hf Ha Hr Hwf. destruct Hwf as [H1 H2 H3 H4 H5 H6].
  split; rewrite ?Hf, ?Ha, ?Hr; try done.
  intros f. unfold deref. rewrite Hs. apply H3.
Qed.

Lemma groupInv_ext p q :
  store q = store p → fwdrs q = fwdrs p → avail q = avail p →
  rejectFwdr q = rejectFwdr p → priority q = priority p →
  groupInv p → groupInv q.
Proof.
  intros Hs Hf Ha Hr Hp [Hwf Hlive].
  split; [by apply (wellFormed_ext p)|].
  intros f Hfa. unfold live, deref. rewrite Hs, Hp.
  apply Hlive. by rewrite <- Ha.
Qed.

(** *** [init] *)

Lemma init_unfold p :
  ∃ pri,
    init p
    = let a := List.filter
                 (λ f, Enabled (deref p f) && (pri <=? Priority (deref p f)))
                 (fwdrs p) in
      mkProxy (name p) (config p) (store p) (fwdrs p) a (rejectFwdr p)
        (index p) (match a with [] => 0 | _ => pri end) (next p).
Proof.
  unfold init.
  destruct (firstEnabled (store p) (fwdrs p)) as [pri|].
  - exists pri. simpl. unfold deref. simpl.
    by destruct (List.filter _ _).
  - exists (priority p). simpl.
    by destruct (List.filter _ _).
Qed.

Lemma init_wellFormed p : wellFormed p → wellFormed (init p).
Proof.
  intros Hwf. destruct Hwf as [H1 H2 H3 H4 H5 H6].
  destruct (init_unfold p) as [pri ->].
  split; simpl; try done.
  - intros f [_ Hf]%elem_of_filter_bool. done.
  - by apply NoDup_filter_bool.
Qed.

Lemma init_live p f : f ∈ avail (init p) → live (init p) f.
Proof.
  destruct (init_unfold p) as [pri ->]. simpl.
  intros Hf. unfold live, deref. simpl.
  destruct (List.filter _ _) as [|x a] eqn:Ha; [by apply elem_of_nil in Hf|].
  rewrite <- Ha in Hf.
  apply elem_of_filter_bool in Hf as [[He Hp]%andb_prop _].
  split; [done|]. unfold deref in Hp. lia.
Qed.

Lemma init_groupInv p : wellFormed p → groupInv (init p).
Proof.
  intros Hwf. split; [by apply init_wellFormed|]. apply init_live.
Qed.

(** The last statement of [onStatusChanged]. *)
Lemma refill_groupInv p :
  groupInv p → groupInv (match avail p with [] => init p | _ => p end).
Proof.
  intros Hinv. destruct (avail p); [|done].
  apply init_groupInv, Hinv.
Qed.

(** *** [onStatusChanged] *)

Lemma indexOf_Some f a i : indexOf f a = Some i → a !! i = Some f.
Proof.
  revert i. induction a as [|x a IH]; intros i; simpl; [done|].
  destruct (Nat.eqb_spec x f) as [->|Hne].
  - by intros [= <-].
  - destruct (indexOf f a) as [j|]; [|done].
    intros [= <-]. by apply IH.
Qed.

Lemma indexOf_None f a : indexOf f a = None → f ∉ a.
Proof.
  induction a as [|x a IH]; simpl; [intros _; apply not_elem_of_nil|].
  destruct (Nat.eqb_spec x f) as [->|Hne]; [done|].
  destruct (indexOf f a) as [j|]; [done|].
  intros _. apply not_elem_of_cons. split; [done | by apply IH].
Qed.

(** Removing by swapping with the last element removes one
    occurrence of the element at that position. *)
Lemma swapRemove_Permutation i a f :
  a !! i = Some f → f :: swapRemove i a ≡ₚ a.
Proof.
  intros Hi. unfold swapRemove.
  destruct (last a) as [x|] eqn:Hlast.
  2:{ apply last_None in Hlast. by subst. }
  apply last_Some in Hlast as [a' ->].
  rewrite length_app. simpl.
  replace (length a' + 1 - 1)%nat with (length a') by lia.
  destruct (decide (i < length a')%nat) as [Hlt|Hge].
  - rewrite insert_app_l by done.
    rewrite take_app_length' by (by rewrite length_insert).
    rewrite lookup_app_l in Hi by done.
    apply list_elem_of_split_length in Hi as (l1 & l2 & -> & ->).
    rewrite insert_app_r_alt by done.
    replace (length l1 - length l1)%nat with 0%nat by lia. simpl.
    rewrite <- !app_assoc. simpl.
    rewrite <- (Permutation_middle l1 (l2 ++ [x]) f).
    apply perm_skip, Permutation_app_head, Permutation_cons_append.
  - assert (i = length a') as ->.
    { apply lookup_lt_Some in Hi. rewrite length_app in Hi. simpl in Hi. lia. }
    rewrite list_lookup_middle in Hi by done. injection Hi as ->.
    rewrite insert_app_r_alt by done.
    replace (length a' - length a')%nat with 0%nat by lia. simpl.
    rewrite take_app_length.
    rewrite (Permutation_app_comm a' [f]). done.
Qed.

Lemma swapRemove_NoDup i a f :
  NoDup a → a !! i = Some f →
  NoDup (swapRemove i a) ∧ (f ∉ swapRemove i a)
  ∧ ∀ x, x ∈ swapRemove i a → x ∈ a.
Proof.
  intros Ha Hi. pose proof (swapRemove_Permutation i a f Hi) as Hp.
  rewrite <- Hp in Ha. apply NoDup_cons in Ha as [Hf Hnd].
  repeat split; [done..|].
  intros x Hx. rewrite <- Hp. by apply elem_of_cons; right.
Qed.

(** The callback restores the invariant after the flag of [fwdr], a
    forwarder of the group, was flipped. *)
Lemma onStatusChanged_groupInv fwdr q :
  wellFormed q → fwdr ∈ fwdrs q →
  (∀ x, x ∈ avail q → x ≠ fwdr → live q x) →
  (Enabled (deref q fwdr) = true → fwdr ∉ avail q) →
  groupInv (onStatusChanged fwdr q).
Proof.
  intros Hwf Hin Hlive Hnew. unfold onStatusChanged.
  apply refill_groupInv.
  destruct (Enabled (deref q fwdr)) eqn:Hen.
  - specialize (Hnew eq_refl).
    destruct (Z.eqb_spec (Priority (deref q fwdr)) (priority q)) as [Heq|Hne].
    + destruct Hwf as [H1 H2 H3 H4 H5 H6].
      split; [split|]; simpl; try done.
      * intros f [Hf| ->%list_elem_of_singleton]%elem_of_app; auto.
      * apply NoDup_app. repeat split; [done| |apply NoDup_singleton].
        intros x Hx ->%list_elem_of_singleton. done.
      * intros f [Hf| ->%list_elem_of_singleton]%elem_of_app.
        -- apply Hlive; [done|]. by intros ->.
        -- split; [done|]. unfold live, deref in *. simpl. lia.
    + destruct (Z.ltb_spec (priority q) (Priority (deref q fwdr))).
      * by apply init_groupInv.
      * split; [done|]. intros x Hx. apply Hlive; [done|]. by intros ->.
  - destruct (indexOf fwdr (avail q)) as [i|] eqn:Hidx.
    + apply indexOf_Some in Hidx.
      destruct Hwf as [H1 H2 H3 H4 H5 H6].
      destruct (swapRemove_NoDup i (avail q) fwdr H6 Hidx) as (Hnd & Hnot & Hsub).
      split; [split|]; simpl; try done.
      * intros f Hf. auto.
      * intros f Hf. apply (Hlive f); [auto|]. by intros ->.
    + apply indexOf_None in Hidx.
      split; [done|]. intros x Hx. apply Hlive; [done|]. by intros ->.
Qed.

(** *** Changes of the store *)

(** A change of one object that keeps its observers keeps the shape. *)
Lemma alter_wellFormed (g : Forwarder → Forwarder) f p :
  (∀ x, handlers (g x) = handlers x) →
  wellFormed p → wellFormed (withStore (alter g f (store p)) p).
Proof.
  intros Hg Hwf. destruct Hwf as [H1 H2 H3 H4 H5 H6].
  split; simpl; try done.
  intros x. rewrite deref_alter. simpl.
  case_decide as Hx; [|done]. destruct Hx as [-> _].
  rewrite Hg. apply H3.
Qed.

Lemma alter_live (g : Forwarder → Forwarder) f p x :
  (f = x → disabled (g (deref p f)) = disabled (deref p f)
           ∧ fpriority (g (deref p f)) = fpriority (deref p f)) →
  live p x → live (withStore (alter g f (store p)) p) x.
Proof.
  intros Hg [He Hp]. unfold live, Enabled, Priority in *.
  rewrite deref_alter. simpl.
  case_decide as Hx; [|done]. destruct Hx as [-> _].
  destruct (Hg eq_refl) as [-> ->]. done.
Qed.

(** A change that keeps observers, flag and priority keeps the invariant. *)
Lemma alter_groupInv (g : Forwarder → Forwarder) f p :
  (∀ x, handlers (g x) = handlers x) →
  (∀ x, disabled (g x) = disabled x ∧ fpriority (g x) = fpriority x) →
  groupInv p → groupInv (withStore (alter g f (store p)) p).
Proof.
  intros Hh Hs [Hwf Hlive].
  split; [by apply alter_wellFormed|].
  intros x Hx. apply alter_live; [intros _; apply Hs|]. by apply Hlive.
Qed.

Lemma SetLatency_groupInv f ns p : groupInv p → groupInv (SetLatency f ns p).
Proof. by apply alter_groupInv. Qed.

(** The forwarders of a group are objects of its store. *)
Lemma fwdrs_valid p f :
  wellFormed p → f ∈ fwdrs p → (f < length (store p))%nat.
Proof.
  intros Hwf Hf. pose proof (wf_handlers p Hwf f) as Hh.
  rewrite decide_True in Hh by done.
  destruct (decide (f < length (store p))%nat) as [|Hge]; [done|].
  unfold deref in Hh. rewrite list_lookup_total_alt in Hh.
  rewrite lookup_ge_None_2 in Hh by lia. done.
Qed.

(** The observers of an object of a well-formed group. *)
Lemma fire_unfold f p :
  wellFormed p →
  fire f p = if decide (f ∈ fwdrs p) then onStatusChanged f p else p.
Proof.
  intros Hwf. unfold fire. rewrite (wf_handlers p Hwf).
  by case_decide.
Qed.

(** Flipping the flag of [f] and calling its observers. *)
Lemma flip_groupInv (b : bool) f p :
  groupInv p → disabled (deref p f) = negb b →
  groupInv (fire f (withStore (alter (setDisabled b) f (store p)) p)).
Proof.
  intros [Hwf Hlive] Hflag.
  set (q := withStore (alter (setDisabled b) f (store p)) p).
  assert (wellFormed q) as Hwfq by (by apply alter_wellFormed).
  assert (∀ x, x ∈ avail q → x ≠ f → live q x) as Hothers.
  { intros x Hx Hne. apply alter_live; [by intros ->|]. by apply Hlive. }
  rewrite fire_unfold by done.
  case_decide as Hin.
  - apply onStatusChanged_groupInv; [done..|].
    intros Hen Hav. apply Hlive in Hav as [Hav _].
    unfold q, Enabled in Hen, Hav. rewrite deref_alter in Hen.
    rewrite Hflag in Hav.
    rewrite decide_True in Hen by (split; [done | by apply fwdrs_valid]).
    simpl in Hen. by destruct b.
  - split; [done|]. intros x Hx. apply Hothers; [done|].
    intros ->. apply Hin. by apply (wf_avail_fwdrs p Hwf).
Qed.

Lemma Enable_groupInv f p : groupInv p → groupInv (Enable f p).
Proof.
  intros Hinv. unfold Enable.
  apply alter_groupInv; [done..|].
  destruct (disabled (deref p f)) eqn:Hd; [|done].
  by apply flip_groupInv.
Qed.

Lemma Disable_groupInv f p : groupInv p → groupInv (Disable f p).
Proof.
  intros Hinv. unfold Disable.
  destruct (disabled (deref p f)) eqn:Hd; [done|].
  by apply flip_groupInv.
Qed.

Lemma checkWebSite_groupInv io f website timeout p :
  groupInv p → groupInv (checkWebSite io f website timeout p).2.
Proof.
  intros Hinv. unfold checkWebSite.
  destruct io as [| | |buf readTime]; try by apply Disable_groupInv.
  destruct (negb (String.eqb "HTTP" buf)); [by apply Disable_groupInv|].
  destruct (timeout <? readTime).
  - by apply Disable_groupInv, SetLatency_groupInv.
  - by apply Enable_groupInv, SetLatency_groupInv.
Qed.

(** *** Selection *)

Lemma NextDialer_state now dstAddr p :
  let q := (NextDialer now dstAddr p).2 in
  store q = store p ∧ fwdrs q = fwdrs p ∧ avail q = avail p
  ∧ rejectFwdr q = rejectFwdr p ∧ priority q = priority p
  ∧ config q = config p ∧ next q = next p.
Proof.
  unfold NextDialer, callNext, scheduleRR, scheduleHA, scheduleLHA, scheduleDH.
  repeat case_match; simpl; done.
Qed.

Lemma NextDialer_groupInv now dstAddr p :
  groupInv p → groupInv (NextDialer now dstAddr p).2.
Proof.
  destruct (NextDialer_state now dstAddr p) as (?&?&?&?&?&_).
  by apply groupInv_ext.
Qed.

End group_facts.

Section construction.
Import strategy.
Context `{ForwarderSource} `{GoSort} `{!GoSortLaws} `{!ForwarderSourceLaws}.

Lemma init_state p :
  store (init p) = store p ∧ fwdrs (init p) = fwdrs p
  ∧ rejectFwdr (init p) = rejectFwdr p ∧ config (init p) = config p
  ∧ index (init p) = index p ∧ next (init p) = next p.
Proof. by destruct (init_unfold p) as [pri ->]. Qed.

Lemma init_avail p :
  (∀ f, f ∈ avail (init p) → f ∈ fwdrs p)
  ∧ (NoDup (fwdrs p) → NoDup (avail (init p))).
Proof.
  destruct (init_unfold p) as [pri ->]. simpl. split.
  - by intros f [_ Hf]%elem_of_filter_bool.
  - apply NoDup_filter_bool.
Qed.

Lemma register_state l p :
  fwdrs (register l p) = fwdrs p ∧ avail (register l p) = avail p
  ∧ rejectFwdr (register l p) = rejectFwdr p
  ∧ priority (register l p) = priority p
  ∧ length (store (register l p)) = length (store p)
  ∧ index (register l p) = index p ∧ next (register l p) = next p
  ∧ config (register l p) = config p.
Proof.
  revert p. induction l as [|f l IH]; intros p; [done|].
  change (register (f :: l) p) with
    (register l (withStore
       (alter (AddHandler onStatusChangedOfGroup) f (store p)) p)).
  destruct (IH (withStore
    (alter (AddHandler onStatusChangedOfGroup) f (store p)) p))
    as (-> & -> & -> & -> & -> & -> & -> & ->).
  simpl. by rewrite length_alter.
Qed.

Lemma register_deref l p x :
  NoDup l →
  deref (register l p) x
  = if decide (x ∈ l ∧ (x < length (store p))%nat)
    then AddHandler onStatusChangedOfGroup (deref p x) else deref p x.
Proof.
  revert p. induction l as [|f l IH]; intros p Hnd.
  - case_decide as Hx; [|done]. by destruct Hx as [?%elem_of_nil _].
  - apply NoDup_cons in Hnd as [Hf Hnd].
    change (register (f :: l) p) with
      (register l (withStore
         (alter (AddHandler onStatusChangedOfGroup) f (store p)) p)).
    rewrite IH by done.
    change (store (withStore ?h p)) with h.
    rewrite length_alter, deref_alter.
    destruct (decide (f = x)) as [->|Hne].
    + rewrite (decide_False (P := x ∈ l ∧ _)) by tauto.
      destruct (decide (x < length (store p))%nat).
      * rewrite !decide_True; [done|split; [left|]; done|done].
      * rewrite !decide_False; tauto.
    + rewrite (decide_False (P := f = x ∧ _)) by tauto.
      destruct (decide (x ∈ l ∧ (x < length (store p))%nat)) as [[]|Hn].
      * rewrite decide_True; [done|]. split; [by right|done].
      * rewrite decide_False; [done|].
        intros [[->|?]%elem_of_cons ?]; tauto.
Qed.

(** Registering a callback changes the observers only. *)
Lemma register_keeps l p x :
  disabled (deref (register l p) x) = disabled (deref p x)
  ∧ fpriority (deref (register l p) x) = fpriority (deref p x)
  ∧ latency (deref (register l p) x) = latency (deref p x).
Proof.
  revert p. induction l as [|f l IH]; intros p; [done|].
  change (register (f :: l) p) with
    (register l (withStore
       (alter (AddHandler onStatusChangedOfGroup) f (store p)) p)).
  destruct (IH (withStore
    (alter (AddHandler onStatusChangedOfGroup) f (store p)) p))
    as (-> & -> & ->).
  rewrite deref_alter. by case_decide as Hx; [destruct Hx as [-> _]|].
Qed.

Lemma forwardersOf_spec s c fs :
  forwardersOf s c = Some fs →
  length fs = length s ∧ ∀ x, x ∈ fs → handlers x = [].
Proof.
  revert fs. induction s as [|chain s IH]; intros fs; simpl.
  - intros [= <-]. split; [done|]. by intros x ?%elem_of_nil.
  - destruct (ForwarderFromURL chain _ _ _) as [fwdr|] eqn:Hf; [|done].
    destruct (forwardersOf s c) as [rest|]; [|done]. simpl.
    intros [= <-]. destruct (IH rest eq_refl) as [Hlen Hh].
    split; [simpl; by rewrite Hlen|].
    intros x [->|Hx]%elem_of_cons; [|by apply Hh].
    simpl. by eapply ForwarderFromURL_handlers.
Qed.

(** The state that [newProxy] returns: [q], with the callback
    registered on its forwarders, where [q] is [init p0] but for the
    fields [config] and [next]. *)
Lemma newProxy_unfold name fs c p :
  newProxy name fs c = Some p →
  ∃ rej q,
    ForwarderFromURL "reject://" "" 0 0 = Some rej
    ∧ p = register (fwdrs q) q
    ∧ let p0 := mkProxy name c (fs ++ [rej])
                  (sortSort (Less (fs ++ [rej])) (seq 0 (length fs))) []
                  (length fs) 0 0 nextRR in
      store q = fs ++ [rej] ∧ fwdrs q = fwdrs p0
      ∧ rejectFwdr q = length fs
      ∧ avail q = avail (init p0) ∧ priority q = priority (init p0)
      ∧ index q = 0 ∧ next q = schedulerOf (Strategy c)
      ∧ ForwardTime (config q) = ForwardTime c
      ∧ RejectTime (config q) = RejectTime c.
Proof.
  unfold newProxy.
  destruct (ForwarderFromURL "reject://" "" 0 0) as [rej|]; [|done].
  cbv zeta. intros [= <-]. exists rej.
  set (p0 := mkProxy name c _ _ [] (length fs) 0 0 nextRR).
  exists (withNext (schedulerOf (Strategy c))
            (if (strings.IndexByte (CheckWebSite (config (init p0))) ":" =? -1)
             then withConfig
                    (withCheckWebSite
                       (CheckWebSite (config (init p0)) +:+ ":80")
                       (config (init p0))) (init p0)
             else init p0)).
  split; [done|]. split; [reflexivity|].
  destruct (init_state p0) as (? & ? & ? & Hc & ? & ?).
  case_match; simpl; rewrite ?Hc; done.
Qed.

(** [newProxy] returns a group in a state of the invariant. *)
Lemma newProxy_groupInv name fs c p :
  fs ≠ [] → (∀ x, x ∈ fs → handlers x = []) →
  newProxy name fs c = Some p →
  groupInv p ∧ length (fwdrs p) = length fs.
Proof.
  intros Hne Hfs (rej & q & Hrej & -> & Hq)%newProxy_unfold.
  set (h := fs ++ [rej]) in *.
  set (p0 := mkProxy name c h _ [] (length fs) 0 0 nextRR) in *.
  cbv zeta in Hq. fold h p0 in Hq.
  destruct Hq as (Hst & Hfw & Hrj & Hav & Hpr & _).
  assert (fwdrs p0 ≡ₚ seq 0 (length fs)) as Hperm
    by apply sortSort_Permutation.
  assert (NoDup (fwdrs p0)) as Hnd by (rewrite Hperm; apply NoDup_seq).
  assert (∀ x, x ∈ fwdrs p0 ↔ (x < length fs)%nat) as Hmem.
  { intros x. rewrite Hperm, elem_of_seq. lia. }
  destruct (register_state (fwdrs q) q) as (Rf & Ra & Rr & Rp & Rl & _).
  assert (∀ x, deref q x = h !!! x) as Hq
    by (intros x; unfold deref; by rewrite Hst).
  assert (length h = S (length fs)) as Hlen
    by (unfold h; rewrite length_app; simpl; lia).
  split; [split; [split|]|].
  - rewrite Rf, Hfw. intros Hnil.
    apply Permutation_length in Hperm.
    rewrite Hnil, length_seq in Hperm. by destruct fs.
  - by rewrite Rf, Hfw.
  - intros x. rewrite Rf, register_deref by (by rewrite Hfw).
    rewrite Hfw, Hst, Hlen, Hq.
    destruct (decide (x ∈ fwdrs p0)) as [Hx|Hx].
    + rewrite decide_True by (split; [done | apply Hmem in Hx; lia]).
      simpl. apply Hmem in Hx. unfold h.
      rewrite lookup_total_app_l by done.
      rewrite (Hfs (fs !!! x)); [done|].
      by apply list_elem_of_lookup_total_2.
    + rewrite decide_False by tauto.
      rewrite Hmem in Hx. unfold h.
      destruct (decide (x = length fs)) as [->|Hne'].
      * rewrite list_lookup_total_middle by done.
        by eapply ForwarderFromURL_handlers.
      * rewrite list_lookup_total_alt, lookup_ge_None_2; [done|].
        rewrite length_app. simpl. lia.
  - rewrite Rr, Rf, Hrj, Hfw, Hmem. lia.
  - intros f. rewrite Ra, Rf, Hav, Hfw. apply init_avail.
  - rewrite Ra, Hav. by apply init_avail.
  - intros f. rewrite Ra, Hav. intros Hf.
    pose proof (init_live p0 f Hf) as [He Hp].
    unfold live, Enabled, Priority in *.
    rewrite Rp, Hpr, register_deref by (by rewrite Hfw).
    destruct (init_state p0) as (Hs0 & _).
    assert (deref q f = deref (init p0) f) as ->.
    { unfold deref. by rewrite Hst, Hs0. }
    by case_decide.
  - rewrite Rf, Hfw, Hperm. apply length_seq.
Qed.

Lemma NewProxy_groupInv name s c p :
  NewProxy name s c = Some p →
  groupInv p ∧ length (fwdrs p) = Nat.max 1 (length s).
Proof.
  unfold NewProxy.
  destruct (forwardersOf s c) as [fs|] eqn:Hfs; [|done]. simpl.
  apply forwardersOf_spec in Hfs as [Hlen Hh].
  destruct fs as [|f0 fs].
  - intros Hp. apply newProxy_groupInv in Hp as [Hinv Hl]; [|done|].
    + split; [done|]. rewrite Hl. destruct s; simpl in *; lia.
    + intros x ->%list_elem_of_singleton. apply DirectForwarder_handlers.
  - intros Hp. apply newProxy_groupInv in Hp as [Hinv Hl]; [|done..].
    split; [done|]. rewrite Hl, Hlen. destruct s; simpl in *; lia.
Qed.

(** The invariant holds in every state of a group. *)
Lemma reachable_groupInv p : reachable p → groupInv p.
Proof.
  induction 1 as [name s c p Hnew| | | | | |].
  - by apply NewProxy_groupInv in Hnew as [? _].
  - apply init_groupInv. by destruct IHreachable.
  - by apply Enable_groupInv.
  - by apply Disable_groupInv.
  - by apply SetLatency_groupInv.
  - by apply NextDialer_groupInv.
  - by apply checkWebSite_groupInv.
Qed.

End construction.

(** ** The sample instances satisfy what is assumed *)

Section sample_facts.

Lemma sink_Permutation {A} (less : A → A → bool) x left :
  sample.sink less x left ≡ₚ x :: left.
Proof.
  induction left as [|y left IH]; simpl; [done|].
  destruct (less x y); [|done].
  rewrite IH. apply perm_swap.
Qed.

Lemma sinks_Permutation {A} (less : A → A → bool) l acc :
  foldl (λ left x, sample.sink less x left) acc l ≡ₚ l ++ acc.
Proof.
  revert acc. induction l as [|x l IH]; intros acc; simpl; [done|].
  rewrite IH, sink_Permutation. by rewrite Permutation_middle.
Qed.

Lemma sinks_unordered {A} (less : A → A → bool) l acc :
  (∀ x y, x ∈ l → y ∈ l ++ acc → less x y = false) →
  foldl (λ left x, sample.sink less x left) acc l = rev l ++ acc.
Proof.
  revert acc. induction l as [|x l IH]; intros acc Hl; simpl; [done|].
  assert (sample.sink less x acc = x :: acc) as ->.
  { destruct acc as [|y acc]; [done|]. simpl.
    rewrite Hl; [done|by left|].
    apply elem_of_app. right. by left. }
  rewrite IH; [by rewrite <- app_assoc|].
  intros a b Ha Hb. apply Hl; [by right|].
  rewrite elem_of_app, elem_of_cons in Hb.
  rewrite elem_of_app, elem_of_cons. tauto.
Qed.

Lemma bySort_laws : @GoSortLaws sample.bySort.
Proof.
  split; intros A less l; simpl; unfold sample.insertionSort.
  - by rewrite <- Permutation_rev, sinks_Permutation, app_nil_r.
  - intros _ Hl. rewrite sinks_unordered, app_nil_r, rev_involutive; [done|].
    intros x y Hx Hy. rewrite app_nil_r in Hy. by apply Hl.
Qed.

Lemma urls_laws : @ForwarderSourceLaws sample.urls.
Proof. split; simpl; [by intros ????? [= <-] | done]. Qed.

End sample_facts.

(** ** Selection *)

Section selection_facts.
Import strategy.

Lemma uint32_range n : 0 ≤ uint32 n < 2 ^ 32.
Proof. unfold uint32. apply Z.mod_pos_bound. lia. Qed.

Lemma uint32_length {A} (a : list A) :
  Z.of_nat (length a) < 2 ^ 32 → uint32 (Z.of_nat (length a)) = Z.of_nat (length a).
Proof. intros Hlt. unfold uint32. apply Z.mod_small. lia. Qed.

Lemma atMod_elem a i f : atMod a i = Picked f → f ∈ a.
Proof.
  unfold atMod. case_match; [done|].
  destruct (a !! _) as [g|] eqn:Hg; [|done].
  intros [= <-]. by eapply list_elem_of_lookup_2.
Qed.

(** A non-empty slice of fewer than 2^32 elements: the index is in
    bounds. *)
Lemma atMod_Picked a i :
  a ≠ [] → Z.of_nat (length a) < 2 ^ 32 →
  ∃ f, a !! Z.to_nat (i mod Z.of_nat (length a)) = Some f
       ∧ atMod a i = Picked f.
Proof.
  intros Hne Hlt. unfold atMod. rewrite uint32_length by done.
  assert (0 < Z.of_nat (length a)) as Hpos by (destruct a; [done|simpl; lia]).
  destruct (Z.eqb_spec (Z.of_nat (length a)) 0) as [|_]; [lia|].
  pose proof (Z.mod_pos_bound i (Z.of_nat (length a)) Hpos) as Hb.
  destruct (lookup_lt_is_Some_2 a (Z.to_nat (i mod Z.of_nat (length a))))
    as [f Hf]; [lia|].
  exists f. by rewrite Hf.
Qed.

Lemma lowest_elem p f0 lo a (l : list ptr) :
  f0 ∈ l → (∀ x, x ∈ a → x ∈ l) →
  (foldl (λ '(fwdr, lowest) f,
            if Latency (deref p f) <? lowest
            then (f, Latency (deref p f)) else (fwdr, lowest))
     (f0, lo) a).1 ∈ l.
Proof.
  revert f0 lo. induction a as [|x a IH]; intros f0 lo Hf0 Ha; simpl; [done|].
  case_match; apply IH; try done.
  - apply Ha. by left.
  - intros y Hy. apply Ha. by right.
  - intros y Hy. apply Ha. by right.
Qed.

Lemma callNext_elem dstAddr p f :
  (callNext dstAddr p).1 = Picked f → f ∈ avail p.
Proof.
  unfold callNext, scheduleRR, scheduleHA, scheduleLHA, scheduleDH.
  destruct (next p); cbn [fst].
  - apply atMod_elem.
  - destruct (avail p); [done|]. intros [= <-]. by left.
  - destruct (avail p) as [|f0 a] eqn:Ha; [done|]. intros [= <-].
    case_match; (apply lowest_elem; [by left|by right]).
  - apply atMod_elem.
Qed.

(** No scheduler panics on a non-empty available slice. *)
Lemma callNext_Picked dstAddr p :
  avail p ≠ [] → Z.of_nat (length (avail p)) < 2 ^ 32 →
  ∃ f, (callNext dstAddr p).1 = Picked f.
Proof.
  intros Hne Hlt.
  unfold callNext, scheduleRR, scheduleHA, scheduleLHA, scheduleDH.
  destruct (next p); simpl.
  - destruct (atMod_Picked (avail p) (addIndex p) Hne Hlt) as (f & _ & ->).
    by exists f.
  - destruct (avail p); [done|]. by eexists.
  - destruct (avail p); [done|]. by eexists.
  - destruct (atMod_Picked (avail p) (fnv.Sum32a dstAddr) Hne Hlt)
      as (f & _ & ->).
    by exists f.
Qed.

Lemma existsb_elem {A} (P : A → bool) l :
  existsb P l = true ↔ ∃ x, x ∈ l ∧ P x = true.
Proof.
  rewrite existsb_exists. by setoid_rewrite list_elem_of_In.
Qed.

Lemma existsb_none {A} (P : A → bool) l :
  existsb P l = false ↔ ∀ x, x ∈ l → P x = false.
Proof.
  rewrite <- not_true_iff_false, existsb_elem. split.
  - intros Hno x Hx. apply not_true_iff_false. intros HP. apply Hno. eauto.
  - intros Hall (x & Hx & HP). rewrite Hall in HP; done.
Qed.

(** When the admission part of [NextDialer] refuses. *)
Lemma allowedAt_false c now :
  allowedAt c now = false ↔
    (ForwardTime c ≠ [] ∧ ∀ w, w ∈ ForwardTime c → Contains w now = false)
    ∨ (∃ w, w ∈ RejectTime c ∧ Contains w now = true).
Proof.
  unfold allowedAt.
  destruct (ForwardTime c) as [|w0 ft] eqn:Hft.
  - simpl. rewrite negb_false_iff, existsb_elem. split; [by right|].
    by intros [[? _]|?].
  - destruct (existsb _ (w0 :: ft)) eqn:Hany; simpl.
    + rewrite negb_false_iff, existsb_elem. split; [by right|].
      intros [[_ Hnone]|?]; [|done].
      apply existsb_none in Hnone. congruence.
    + split; [|done]. intros _. left. split; [done|].
      by apply existsb_none.
Qed.

(** [NextDialer], by cases. *)
Lemma NextDialer_unfold now dstAddr p :
  NextDialer now dstAddr p
  = if allowedAt (config p) now
    then (if decide (avail p = [])
          then (atMod (fwdrs p) (addIndex p), withIndex (addIndex p) p)
          else callNext dstAddr p)
    else (Picked (rejectFwdr p), p).
Proof.
  unfold NextDialer.
  destruct (allowedAt (config p) now); [|done]. simpl.
  by destruct (avail p).
Qed.

End selection_facts.

Section group_claims.
Import strategy.
Context `{ForwarderSource} `{GoSort} `{!GoSortLaws} `{!ForwarderSourceLaws}.


Lemma avail_length p :
  wellFormed p → (length (avail p) ≤ length (fwdrs p))%nat.
Proof.
  intros Hwf. apply submseteq_length, NoDup_submseteq.
  - apply (wf_avail_NoDup p Hwf).
  - apply (wf_avail_fwdrs p Hwf).
Qed.

(** C3: [NextDialer] returns the reject forwarder exactly when the
    forward windows are not empty and none contains [now], or a
    reject window contains [now]. *)
Theorem NextDialer_reject_iff p now dstAddr :
  reachable p →
  (NextDialer now dstAddr p).1 = Picked (rejectFwdr p)
  ↔ (ForwardTime (config p) ≠ []
     ∧ ∀ w, w ∈ ForwardTime (config p) → Contains w now = false)
    ∨ (∃ w, w ∈ RejectTime (config p) ∧ Contains w now = true).
Proof.
  intros [Hwf _]%reachable_groupInv.
  rewrite <- allowedAt_false, NextDialer_unfold.
  destruct (allowedAt (config p) now); [|done].
  split; [|done]. intros Hpick. exfalso.
  apply (wf_reject p Hwf).
  case_decide.
  - by apply atMod_elem in Hpick.
  - by apply callNext_elem, (wf_avail_fwdrs p Hwf) in Hpick.
Qed.

(** C5: with no available forwarder, a request that the time windows
    allow gets [fwdrs[index' % len(fwdrs)]], where [index'] is the
    counter after its increment. *)
Theorem NextDialer_none_available p now dstAddr :
  reachable p → Z.of_nat (length (fwdrs p)) < 2 ^ 32 →
  avail p = [] → allowedAt (config p) now = true →
  ∃ f, fwdrs p !! Z.to_nat (uint32 (index p + 1) mod Z.of_nat (length (fwdrs p)))
       = Some f
       ∧ NextDialer now dstAddr p
         = (Picked f, withIndex (uint32 (index p + 1)) p).
Proof.
  intros [Hwf _]%reachable_groupInv Hlt Ha Hallow.
  rewrite NextDialer_unfold, Hallow, decide_True by done.
  destruct (atMod_Picked (fwdrs p) (addIndex p) (wf_nonempty p Hwf) Hlt)
    as (f & Hf & ->).
  by exists f.
Qed.

(** C10: the slice of forwarders of a group is never empty, and no
    selection panics: the divisors are positive and the index is in
    bounds. *)
Theorem selection_never_panics p :
  reachable p → Z.of_nat (length (fwdrs p)) < 2 ^ 32 →
  fwdrs p ≠ []
  ∧ 0 < uint32 (Z.of_nat (length (fwdrs p)))
  ∧ (avail p ≠ [] → 0 < uint32 (Z.of_nat (length (avail p))))
  ∧ (∀ now dstAddr, ∃ f, (NextDialer now dstAddr p).1 = Picked f)
  ∧ (∀ n dstAddr, avail p ≠ [] →
       ∃ f, (callNext dstAddr (withNext n p)).1 = Picked f).
Proof.
  intros [Hwf _]%reachable_groupInv Hlt.
  pose proof (wf_nonempty p Hwf) as Hne.
  pose proof (avail_length p Hwf) as Hle.
  assert (Z.of_nat (length (avail p)) < 2 ^ 32) as Hlta by lia.
  split; [done|]. split.
  { rewrite uint32_length by done. destruct (fwdrs p); [done|simpl; lia]. }
  split.
  { intros Ha. rewrite uint32_length by done.
    destruct (avail p); [done|simpl; lia]. }
  split.
  - intros now dstAddr. rewrite NextDialer_unfold.
    destruct (allowedAt (config p) now); [|by eexists].
    case_decide.
    + destruct (atMod_Picked (fwdrs p) (addIndex p) Hne Hlt) as (f & _ & ->).
      by exists f.
    + by apply callNext_Picked.
  - intros n dstAddr Ha. by apply callNext_Picked.
Qed.


(** A group made of three enabled forwarders of one priority has them
    available in the order given (the objects 0, 1, 2), with the
    counter at 0. *)
Lemma NewProxy_available_order name urlA urlB urlC c p :
  NewProxy name [urlA; urlB; urlC] c = Some p →
  Enabled (deref p 0%nat) = true → Enabled (deref p 1%nat) = true →
  Enabled (deref p 2%nat) = true →
  Priority (deref p 0%nat) = Priority (deref p 1%nat) →
  Priority (deref p 1%nat) = Priority (deref p 2%nat) →
  fwdrs p = [0; 1; 2]%nat ∧ avail p = [0; 1; 2]%nat ∧ index p = 0
  ∧ next p = schedulerOf (Strategy c).
Proof.
  intros Hnew.
  unfold NewProxy in Hnew.
  destruct (forwardersOf _ c) as [fs|] eqn:Hfs; [|done].
  apply forwardersOf_spec in Hfs as [Hlen _].
  destruct fs as [|fa [|fb [|fc [|? ?]]]]; try done. simpl in Hnew.
  apply newProxy_unfold in Hnew as (rej & q & _ & -> & Hq).
  cbv zeta in Hq.
  set (h := [fa; fb; fc] ++ [rej]) in *.
  destruct Hq as (Hst & Hfw & _ & Hav & _ & Hix & Hnx & Hqft & Hqrt).
  destruct (register_state (fwdrs q) q)
    as (Rf & Ra & _ & _ & _ & Ri & Rn & Rc).
  assert (∀ x, disabled (deref (register (fwdrs q) q) x) = disabled (h !!! x)
               ∧ fpriority (deref (register (fwdrs q) q) x) = fpriority (h !!! x))
    as Hkeep.
  { intros x. destruct (register_keeps (fwdrs q) q x) as (-> & -> & _).
    unfold deref. by rewrite Hst. }
  unfold Enabled, Priority.
  destruct (Hkeep 0%nat) as [-> ->]. destruct (Hkeep 1%nat) as [-> ->].
  destruct (Hkeep 2%nat) as [-> ->].
  intros E0%negb_true_iff E1%negb_true_iff E2%negb_true_iff P01 P12.
  assert (fwdrs q = [0; 1; 2]%nat) as Hfwq.
  { rewrite Hfw. simpl. apply sortSort_unordered; [simpl; lia|].
    intros x y Hx Hy. unfold Less, Priority. apply Z.ltb_ge.
    rewrite !elem_of_cons, elem_of_nil in Hx, Hy.
    destruct Hx as [->|[->|[->|[]]]], Hy as [->|[->|[->|[]]]]; lia. }
  assert (avail q = [0; 1; 2]%nat) as Havq.
  { rewrite Hav. unfold init.
    rewrite Hfw in Hfwq. subst h.
    simpl in Hfwq, E0, E1, E2, P01, P12. simpl. rewrite Hfwq. simpl.
    unfold Enabled, Priority, deref. simpl.
    rewrite E0. simpl. rewrite E0, E1, E2. simpl.
    rewrite <- P12, <- P01, Z.leb_refl. reflexivity. }
  rewrite Rf, Ra, Ri, Rn. by repeat split.
Qed.

End group_claims.

(** *** The theorems on the sample groups *)


Lemma groupAB_reachable :
  @strategy.reachable sample.urls sample.bySort sample.groupAB.
Proof. by eapply strategy.reach_NewProxy, groupAB_NewProxy. Qed.


Lemma groupWindows_reachable :
  @strategy.reachable sample.urls sample.bySort sample.groupWindows.
Proof. by eapply (strategy.reach_NewProxy "w" ["A"; "B"] sample.configWindows). Qed.

(** Monday at 12:30, inside a forward window and inside a reject
    window: the request is rejected. *)
Lemma NextDialer_reject_iff_witness :
  let p := sample.groupWindows in
  let now := timewindow.mkTime 1 12 30 in
  @strategy.reachable sample.urls sample.bySort p
  ∧ (∃ w, w ∈ strategy.RejectTime (strategy.config p)
          ∧ timewindow.Contains w now = true)
  ∧ (strategy.NextDialer now "x:80" p).1 = strategy.Picked (strategy.rejectFwdr p).
Proof.
  intros p now.
  assert (∃ w, w ∈ strategy.RejectTime (strategy.config p)
               ∧ timewindow.Contains w now = true) as Hw.
  { exists (timewindow.mkTimeWindow 1 1 12 0 13 0). split; [left|reflexivity]. }
  split; [apply groupWindows_reachable|]. split; [done|].
  apply (@NextDialer_reject_iff sample.urls sample.bySort bySort_laws urls_laws
           p now "x:80" groupWindows_reachable).
  by right.
Defined.

Lemma NextDialer_none_available_witness :
  let p := strategy.Disable 1%nat (strategy.Disable 0%nat sample.groupAB) in
  let now := timewindow.mkTime 1 12 30 in
  @strategy.reachable sample.urls sample.bySort p
  ∧ Z.of_nat (length (strategy.fwdrs p)) < 2 ^ 32
  ∧ strategy.avail p = []
  ∧ strategy.allowedAt (strategy.config p) now = true
  ∧ ∃ f, strategy.fwdrs p
           !! Z.to_nat (strategy.uint32 (strategy.index p + 1)
                        mod Z.of_nat (length (strategy.fwdrs p))) = Some f
         ∧ strategy.NextDialer now "x:80" p
           = (strategy.Picked f,
              strategy.withIndex (strategy.uint32 (strategy.index p + 1)) p).
Proof.
  intros p now.
  assert (@strategy.reachable sample.urls sample.bySort p) as Hp.
  { apply strategy.reach_Disable; [|simpl; lia].
    apply strategy.reach_Disable; [apply groupAB_reachable | simpl; lia]. }
  assert (Z.of_nat (length (strategy.fwdrs p)) < 2 ^ 32) as Hlt
    by (vm_compute; reflexivity).
  split; [done|]. split; [done|].
  split; [reflexivity|]. split; [reflexivity|].
  exact (@NextDialer_none_available sample.urls sample.bySort bySort_laws urls_laws p now "x:80"
           Hp Hlt eq_refl eq_refl).
Defined.

Lemma selection_never_panics_witness :
  let p := sample.groupAB in
  @strategy.reachable sample.urls sample.bySort p
  ∧ Z.of_nat (length (strategy.fwdrs p)) < 2 ^ 32
  ∧ strategy.fwdrs p ≠ []
  ∧ ∀ now dstAddr, ∃ f, (strategy.NextDialer now dstAddr p).1 = strategy.Picked f.
Proof.
  intros p.
  assert (Z.of_nat (length (strategy.fwdrs p)) < 2 ^ 32) as Hlt
    by (vm_compute; reflexivity).
  split; [apply groupAB_reachable|]. split; [done|].
  destruct (@selection_never_panics sample.urls sample.bySort bySort_laws urls_laws p
              groupAB_reachable Hlt) as (Hne & _ & _ & Hpick & _).
  by split.
Defined.




(** ** The rule router *)

Section suffix_facts.

Lemma takeN_S i host c :
  String.get i host = Some c →
  strings.takeN (S i) host = strings.takeN i host +:+ String c "".
Proof.
  revert i. induction host as [|a s IH]; intros i; [by destruct i|].
  destruct i as [|i]; simpl.
  - by intros [= ->].
  - intros Hc. rewrite append_cons. f_equal. by apply IH.
Qed.

Lemma dropN_S i host c :
  String.get i host = Some c →
  strings.dropN i host = String c (strings.dropN (S i) host).
Proof.
  revert i. induction host as [|a s IH]; intros i; [by destruct i|].
  destruct i as [|i]; simpl.
  - by intros [= ->].
  - apply IH.
Qed.

Lemma get_lt i host : (i < String.length host)%nat → is_Some (String.get i host).
Proof.
  revert i. induction host as [|a s IH]; intros i; simpl; [lia|].
  destruct i as [|i]; [by eexists|]. intros Hi. apply IH. lia.
Qed.

Lemma takeN_all host : strings.takeN (String.length host) host = host.
Proof. induction host as [|a s IH]; simpl; congruence. Qed.

Lemma dropN_all host : strings.dropN (String.length host) host = "".
Proof. induction host as [|a s IH]; simpl; congruence. Qed.

(** [LastIndexByte] is -1 or a position. *)
Lemma LastIndexByte_range s c : -1 ≤ strings.LastIndexByte s c.
Proof.
  induction s as [|a s IH]; simpl; [lia|].
  destruct (Z.ltb_spec (strings.LastIndexByte s c) 0); [|lia].
  destruct (Ascii.eqb a c); lia.
Qed.

(** One more byte to the right. *)
Lemma LastIndexByte_snoc s a c :
  strings.LastIndexByte (s +:+ String a "") c
  = if Ascii.eqb a c then Z.of_nat (String.length s)
    else strings.LastIndexByte s c.
Proof.
  induction s as [|b s IH].
  - simpl. by destruct (Ascii.eqb a c).
  - rewrite append_cons. simpl strings.LastIndexByte. rewrite IH.
    pose proof (LastIndexByte_range s c).
    destruct (Ascii.eqb a c).
    + destruct (Z.ltb_spec (Z.of_nat (String.length s)) 0); [lia|].
      simpl String.length. lia.
    + done.
Qed.

Lemma length_takeN i host :
  (i ≤ String.length host)%nat → String.length (strings.takeN i host) = i.
Proof.
  revert i. induction host as [|a s IH]; intros i; simpl.
  - intros Hi. by replace i with 0%nat by lia.
  - destruct i as [|i]; [done|]. simpl. intros Hi. f_equal. apply IH. lia.
Qed.

Lemma afterDots_snoc s c :
  afterDots (s +:+ String c "")
  = map (λ x, x +:+ String c "") (afterDots s)
    ++ (if Ascii.eqb c "." then [""] else []).
Proof.
  induction s as [|a s IH].
  - simpl. by destruct (Ascii.eqb c ".").
  - rewrite append_cons. simpl. rewrite IH.
    by destruct (Ascii.eqb a ".").
Qed.

Lemma keysBelow_S host i :
  keysBelow host (S i)
  = match String.get i host with
    | Some c =>
        if Ascii.eqb c "." then strings.dropN (S i) host :: keysBelow host i
        else keysBelow host i
    | None => keysBelow host i
    end.
Proof. reflexivity. Qed.

(** The keys of the loop are the dot-suffixes of the part of the host
    name to the left of [i], each with the rest of the name, from the
    shortest to the longest. *)
Lemma keysBelow_afterDots host i :
  (i ≤ String.length host)%nat →
  keysBelow host i
  = rev (map (λ x, x +:+ strings.dropN i host)
           (afterDots (strings.takeN i host))) ++ [host].
Proof.
  induction i as [|i IH]; intros Hi.
  - by destruct host.
  - destruct (get_lt i host) as [c Hc]; [lia|].
    rewrite keysBelow_S, Hc, IH by lia.
    rewrite (takeN_S i host c Hc), afterDots_snoc, map_app, rev_app_distr.
    rewrite map_map.
    rewrite (map_ext (λ x, (x +:+ String c "") +:+ strings.dropN (S i) host)
               (λ x, x +:+ strings.dropN i host)).
    2:{ intros x. by rewrite append_assoc, (dropN_S i host c Hc). }
    by destruct (Ascii.eqb c ".").
Qed.

Lemma keysBelow_dotSuffixes host :
  keysBelow host (String.length host) = rev (dotSuffixes host).
Proof.
  rewrite keysBelow_afterDots by done.
  rewrite takeN_all, dropN_all. unfold dotSuffixes. simpl. f_equal. f_equal.
  rewrite <- (map_id (afterDots host)) at 2.
  apply map_ext. intros x. apply append_empty_r.
Qed.

End suffix_facts.

Section router_facts.
Context `{GoUnicode} `{GoNet}.
Import rule.

Lemma firstHit_cons (m : gmap string nat) k keys :
  firstHit m (k :: keys)
  = match m !! k with Some g => Some g | None => firstHit m keys end.
Proof. reflexivity. Qed.

(** The loop of [nextProxy] ends, with the first of its keys that the
    map has. *)
Lemma lookupDomain_keysBelow m host i fuel :
  (i ≤ String.length host)%nat → (i + 2 ≤ fuel)%nat →
  lookupDomain fuel m host (Z.of_nat i) = foundOf (firstHit m (keysBelow host i)).
Proof.
  revert fuel. induction i as [|i IH]; intros fuel Hi Hfuel.
  - destruct fuel as [|[|fuel]]; [lia..|].
    simpl. unfold strings.sliceFrom. simpl. by destruct (m !! host).
  - destruct fuel as [|fuel]; [lia|].
    destruct (get_lt i host) as [c Hc]; [lia|].
    rewrite keysBelow_S, Hc.
    simpl lookupDomain.
    destruct (Z.eqb_spec (Z.of_nat (S i)) (-1)) as [|_]; [lia|].
    unfold strings.sliceTo, strings.sliceFrom. rewrite Nat2Z.id.
    rewrite (takeN_S i host c Hc), LastIndexByte_snoc.
    rewrite length_takeN by lia.
    destruct (Ascii.eqb c ".").
    + replace (Z.to_nat (Z.of_nat i + 1)) with (S i) by lia.
      rewrite firstHit_cons.
      destruct (m !! strings.dropN (S i) host); [done|].
      apply IH; lia.
    + rewrite <- (IH (S fuel)) by lia.
      simpl lookupDomain.
      destruct (Z.eqb_spec (Z.of_nat i) (-1)) as [|_]; [lia|].
      unfold strings.sliceTo, strings.sliceFrom. by rewrite Nat2Z.id.
Qed.

Lemma lookupDomain_dotSuffixes m host :
  lookupDomain (String.length host + 2) m host (strings.len host)
  = foundOf (firstHit m (rev (dotSuffixes host))).
Proof.
  rewrite <- keysBelow_dotSuffixes. by apply lookupDomain_keysBelow.
Qed.

(** C1, as the code has it: for a host that is not a numeric IP,
    [nextProxy] tries the dot-suffixes of the lower-cased host in the
    domain map from the shortest to the longest (the empty key is not
    one of them) and returns the group of the first one present, or
    the default group. *)
Theorem nextProxy_shortest_suffix dstAddr host port (p : Proxy) :
  net.SplitHostPort dstAddr = Some (host, port) →
  ParseIP host = None →
  nextProxy dstAddr p
  = Some (groupOf (firstHit (domainMap p)
                     (rev (dotSuffixes (strings.ToLower host))))).
Proof.
  intros Hsplit Hip. unfold nextProxy. rewrite Hsplit, Hip.
  rewrite lookupDomain_dotSuffixes.
  by destruct (firstHit _ _).
Qed.

End router_facts.

(** The order on the host of the design document. *)
Lemma dotSuffixes_example :
  rev (dotSuffixes "a.b.example.com")
  = ["com"; "example.com"; "b.example.com"; "a.b.example.com"].
Proof. reflexivity. Qed.

(** C1 as stated fails: with the rules on [example.com] (group 0) and
    [api.example.com] (group 1), the request for [x.api.example.com:443]
    goes to the group of [example.com], the shorter suffix. *)
Lemma nextProxy_not_longest_suffix :
  ∃ r, sample.router = Some r
       ∧ rule.domainMap r !! "example.com" = Some 0%nat
       ∧ rule.domainMap r !! "api.example.com" = Some 1%nat
       ∧ sample.nextProxy "x.api.example.com:443" r = Some (rule.ruleGroup 0)
       ∧ firstHit (rule.domainMap r)
           (dotSuffixes "x.api.example.com" ++ [""]) = Some 1%nat.
Proof. eexists. split; [reflexivity|]. by vm_compute. Qed.

Lemma nextProxy_shortest_suffix_witness :
  ∃ r, sample.router = Some r
       ∧ net.SplitHostPort "www.example.com:443" = Some ("www.example.com", "443")
       ∧ @ParseIP sample.ipv4 "www.example.com" = None
       ∧ sample.nextProxy "www.example.com:443" r
         = Some (groupOf (firstHit (rule.domainMap r)
                            (rev (dotSuffixes
                                    (@strings.ToLower sample.asciiOnly
                                       "www.example.com"))))).
Proof.
  eexists. split; [reflexivity|]. split; [reflexivity|]. split; [reflexivity|].
  apply (@nextProxy_shortest_suffix sample.asciiOnly sample.ipv4
           "www.example.com:443" "www.example.com" "443"); reflexivity.
Defined.

(** * Further properties *)

(** ** Time windows *)

Section timewindow_more.
Context `{GoUnicode}.
Import timewindow.

(** X1: a window is the same interval of minutes on each of its days:
    [Contains] holds exactly when the day (Sunday counted as 7) is
    between [FromDay] and [ToDay] and the minute of the day is between
    [FromHour:FromMin] and [ToHour:ToMin], both included. *)
Theorem Contains_minutes_of_day w t :
  0 ≤ FromMin w ≤ 59 → 0 ≤ ToMin w ≤ 59 → 0 ≤ Minute t ≤ 59 →
  Contains w t = true
  ↔ FromDay w ≤ dayOf t ≤ ToDay w
    ∧ 60 * FromHour w + FromMin w ≤ 60 * Hour t + Minute t
      ≤ 60 * ToHour w + ToMin w.
Proof.
  intros Hf Ht Hm. unfold Contains, dayOf.
  destruct (Weekday t =? 0);
    repeat match goal with
           | |- context [?a <? ?b] => destruct (Z.ltb_spec a b)
           | |- context [?a =? ?b] => destruct (Z.eqb_spec a b)
           end; simpl; split; try done; try lia.
Qed.

(** X2: a window whose days, or whose times, are in the wrong order
    contains no instant: windows do not wrap around the end of the
    week or around midnight. *)
Theorem Contains_unordered_never w t :
  ToDay w < FromDay w
  ∨ ToHour w < FromHour w
  ∨ (ToHour w = FromHour w ∧ ToMin w < FromMin w) →
  Contains w t = false.
Proof.
  intros Horder. unfold Contains.
  destruct (Weekday t =? 0);
    repeat match goal with
           | |- context [?a <? ?b] => destruct (Z.ltb_spec a b)
           | |- context [?a =? ?b] => destruct (Z.eqb_spec a b)
           end; simpl; try done; lia.
Qed.

(** X3: [String] panics exactly on a window of a single day whose day
    is not an index of the table of names (0 to 7); every other
    window is rendered. *)
Theorem String_panics_iff w :
  String_ w = None ↔ FromDay w = ToDay w ∧ (FromDay w < 0 ∨ 7 < FromDay w).
Proof.
  unfold String_, daysOfWeekString.
  destruct (Z.eqb_spec (FromDay w) (ToDay w)) as [Heq|Hne].
  - destruct (Z.ltb_spec (FromDay w) 0) as [Hneg|Hpos]; simpl.
    + split; [intros _; lia | done].
    + destruct (dayOfWeekNames !! Z.to_nat (FromDay w)) as [n|] eqn:Hn; simpl.
      * split; [done|]. intros [_ [?|Hbig]]; [lia|].
        apply lookup_lt_Some in Hn. simpl in Hn. lia.
      * split; [|done]. intros _.
        apply lookup_ge_None in Hn. simpl in Hn. lia.
  - simpl. split; [done | tauto].
Qed.

Lemma fieldsFrom_blank_start sp rest :
  allSpace sp = true →
  strings.fieldsFrom "" (sp +:+ rest) = strings.fieldsFrom "" rest.
Proof.
  induction sp as [|c sp IH]; intros Hsp; [done|].
  simpl in Hsp. apply andb_prop in Hsp as [Hc Hsp].
  rewrite append_cons. simpl. rewrite Hc. simpl. by apply IH.
Qed.

Lemma fieldsFrom_blank_after cur sp rest :
  allSpace sp = true → sp ≠ "" → cur ≠ "" →
  strings.fieldsFrom cur (sp +:+ rest) = cur :: strings.fieldsFrom "" rest.
Proof.
  intros Hsp Hne Hcur. destruct sp as [|c sp]; [done|].
  simpl in Hsp. apply andb_prop in Hsp as [Hc Hsp].
  rewrite append_cons. simpl. rewrite Hc, (eqb_empty_false cur) by done.
  f_equal. by apply fieldsFrom_blank_start.
Qed.

Lemma allSpace_isASCII sp : allSpace sp = true → strings.isASCII sp = true.
Proof.
  induction sp as [|c sp IH]; [done|]. simpl.
  intros [Hc Hsp]%andb_prop. rewrite IH by done.
  unfold strings.asciiSpace in Hc. rewrite andb_true_r. lia.
Qed.

(** The words of a line of three words with any white space around. *)
Lemma Fields_three_words s0 a s1 b s2 c s3 :
  word a = true → word b = true → word c = true →
  allSpace s0 = true → allSpace s1 = true → allSpace s2 = true →
  allSpace s3 = true → s1 ≠ "" → s2 ≠ "" →
  strings.Fields (s0 +:+ a +:+ s1 +:+ b +:+ s2 +:+ c +:+ s3) = [a; b; c].
Proof.
  intros (Aa & Sa & Na)%word_inv (Ab & Sb & Nb)%word_inv (Ac & Sc & Nc)%word_inv
    H0 H1 H2 H3 N1 N2.
  unfold strings.Fields.
  rewrite !isASCII_append, Aa, Ab, Ac, !allSpace_isASCII by done. simpl.
  rewrite fieldsFrom_blank_start by done.
  rewrite fieldsFrom_noSpace, append_empty_l by done.
  rewrite fieldsFrom_blank_after by done.
  rewrite fieldsFrom_noSpace, append_empty_l by done.
  rewrite fieldsFrom_blank_after by done.
  rewrite fieldsFrom_noSpace, append_empty_l by done.
  destruct (decide (s3 = "")) as [->|N3].
  - simpl. by rewrite (eqb_empty_false c).
  - rewrite <- (append_empty_r s3). by rewrite fieldsFrom_blank_after.
Qed.

(** X4: [Parse] reads the three words of the line and nothing else:
    white space (blanks, tabs, line ends) before, between and after
    them is of no account. *)
Theorem Parse_white_space s0 a s1 b s2 c s3 :
  word a = true → word b = true → word c = true →
  allSpace s0 = true → allSpace s1 = true → allSpace s2 = true →
  allSpace s3 = true → s1 ≠ "" → s2 ≠ "" →
  Parse (s0 +:+ a +:+ s1 +:+ b +:+ s2 +:+ c +:+ s3)
  = Parse (a +:+ " " +:+ b +:+ " " +:+ c).
Proof.
  intros Wa Wb Wc H0 H1 H2 H3 N1 N2. unfold Parse.
  rewrite Fields_three_words by done.
  pose proof (Fields_three_words "" a " " b " " c "" Wa Wb Wc) as Hplain.
  rewrite append_empty_l, append_empty_r in Hplain.
  by rewrite Hplain.
Qed.

End timewindow_more.

Lemma Contains_minutes_of_day_witness :
  let w := timewindow.mkTimeWindow 1 5 9 0 17 30 in
  let t := timewindow.mkTime 3 17 30 in
  0 ≤ 0 ≤ 59 ∧ 0 ≤ 30 ≤ 59 ∧ 0 ≤ 30 ≤ 59
  ∧ timewindow.Contains w t = true.
Proof.
  intros w t. split; [lia|]. split; [lia|]. split; [lia|].
  apply (Contains_minutes_of_day w t); subst w t; unfold dayOf; simpl; lia.
Defined.

Lemma Contains_unordered_never_witness :
  let w := timewindow.mkTimeWindow 6 7 22 0 6 0 in
  timewindow.ToHour w < timewindow.FromHour w
  ∧ timewindow.Contains w (timewindow.mkTime 6 23 0) = false
  ∧ timewindow.Contains w (timewindow.mkTime 0 5 0) = false.
Proof.
  intros w. split; [simpl; lia|].
  split; apply (Contains_unordered_never w); right; left; simpl; lia.
Defined.

Lemma Parse_white_space_witness :
  @timewindow.Parse sample.asciiOnly "  1-5	09:00   17:30 "
  = @timewindow.Parse sample.asciiOnly "1-5 09:00 17:30".
Proof.
  apply (@Parse_white_space sample.asciiOnly "  " "1-5" (String "009" "")
           "09:00" "   " "17:30" " "); done.
Defined.

(** ** The flag of a list of time windows *)

Section gliderflag_facts.
Context `{GoUnicode}.
Import timewindow gliderflag.

Lemma SetAll_changed vals s s' :
  changed s = true → SetAll vals s = Some s' →
  changed s' = true
  ∧ ∃ ws, Forall2 (λ val w, Parse val = Some w) vals ws
          ∧ value s' = value s ++ ws.
Proof.
  revert s. induction vals as [|val vals IH]; intros s Hs; simpl.
  - intros [= <-]. split; [done|]. exists []. split; [constructor|].
    by rewrite app_nil_r.
  - unfold Set_. destruct (Parse val) as [w|] eqn:Hw; [|done]. simpl.
    rewrite Hs. simpl. intros Hall.
    apply IH in Hall as (Hc & ws & Hws & Hv); [|done].
    split; [done|]. exists (w :: ws). split; [by constructor|].
    rewrite Hv. simpl. by rewrite <- app_assoc.
Qed.

(** X5: the values given for the flag replace its default, they are
    not added to it: after the calls of [Set] for one value or more,
    the list holds the windows parsed from the values, in their order,
    and nothing of the default. *)
Theorem Set_replaces_default defaultValue vals s' :
  vals ≠ [] →
  SetAll vals (TimeWindowSliceVar defaultValue) = Some s' →
  Forall2 (λ val w, Parse val = Some w) vals (value s').
Proof.
  destruct vals as [|val vals]; [done|]. intros _. simpl.
  unfold Set_ at 1. destruct (Parse val) as [w|] eqn:Hw; [|done]. simpl.
  intros Hall. apply SetAll_changed in Hall as (_ & ws & Hws & ->); [|done].
  simpl. by constructor.
Qed.

End gliderflag_facts.

Lemma Set_replaces_default_witness :
  ∃ s', @SetAll sample.asciiOnly ["MON 09:00 17:00"; "6-7 00:00 23:59"]
          (gliderflag.TimeWindowSliceVar [timewindow.mkTimeWindow 1 7 0 0 23 59])
        = Some s'
        ∧ gliderflag.value s'
          = [timewindow.mkTimeWindow 1 1 9 0 17 0;
             timewindow.mkTimeWindow 6 7 0 0 23 59]
        ∧ Forall2 (λ val w, @timewindow.Parse sample.asciiOnly val = Some w)
            ["MON 09:00 17:00"; "6-7 00:00 23:59"] (gliderflag.value s').
Proof.
  eexists. split; [reflexivity|]. split; [reflexivity|].
  apply (@Set_replaces_default sample.asciiOnly
           [timewindow.mkTimeWindow 1 7 0 0 23 59]); [done | reflexivity].
Defined.

(** ** The groups of forwarders, further *)

Section init_more.
Import strategy.


Lemma firstEnabled_None h l :
  firstEnabled h l = None → ∀ f, f ∈ l → Enabled (h !!! f) = false.
Proof.
  induction l as [|f l IH]; simpl; [by intros _ g ?%elem_of_nil|].
  destruct (Enabled (h !!! f)) eqn:He; [done|].
  intros Hn g [->|Hg]%elem_of_cons; [done|]. by apply IH.
Qed.

(** [init], with the priority that its first loop finds. *)
Lemma init_exact p :
  init p
  = let pri := default (priority p) (firstEnabled (store p) (fwdrs p)) in
    let a := List.filter
               (λ f, Enabled (deref p f) && (pri <=? Priority (deref p f)))
               (fwdrs p) in
    mkProxy (name p) (config p) (store p) (fwdrs p) a (rejectFwdr p)
      (index p) (match a with [] => 0 | _ => pri end) (next p).
Proof.
  unfold init.
  destruct (firstEnabled (store p) (fwdrs p)) as [pri|]; simpl;
    unfold deref; simpl; by destruct (List.filter _ _).
Qed.





(** X6: [init] twice is [init] once. *)
Theorem init_idempotent p : init (init p) = init p.
Proof.
  rewrite (init_exact (init p)). rewrite !(init_exact p).
  simpl. unfold deref. simpl.
  destruct (firstEnabled (store p) (fwdrs p)) as [pri|] eqn:Hfirst; simpl.
  - done.
  - assert (∀ pri, List.filter
              (λ f, Enabled (store p !!! f) && (pri <=? Priority (store p !!! f)))
              (fwdrs p) = []) as Hnone.
    { intros pri. destruct (List.filter _ _) as [|x a] eqn:Ha; [done|].
      assert (x ∈ x :: a) as Hx by left. rewrite <- Ha in Hx.
      apply elem_of_filter_bool in Hx as [[Hex _]%andb_prop Hx].
      by rewrite (firstEnabled_None _ _ Hfirst x Hx) in Hex. }
    by rewrite !Hnone.
Qed.

End init_more.

Section tight_facts.
Import strategy.


























End tight_facts.

Section tight_reachable.
Import strategy.
Context `{ForwarderSource} `{GoSort} `{!GoSortLaws} `{!ForwarderSourceLaws}.







End tight_reachable.

(** ** The sample sort keeps the order law *)

Section sample_order.





End sample_order.

(** ** What every state of a group has, further *)

Section group_extras.
Import strategy.
Context `{ForwarderSource} `{GoSort} `{!GoSortLaws} `{!ForwarderSourceLaws}.





End group_extras.

Section schedule_extras.
Import strategy.

Lemma lowest_firstLowest p pre a cur :
  firstLowest p pre cur →
  firstLowest p (pre ++ a)
    (foldl (λ '(fwdr, lowest) f,
              if Latency (deref p f) <? lowest
              then (f, Latency (deref p f)) else (fwdr, lowest))
       (cur, Latency (deref p cur)) a).1.
Proof.
  revert pre cur. induction a as [|x a IH]; intros pre cur Hcur.
  - by rewrite app_nil_r.
  - replace (pre ++ x :: a) with ((pre ++ [x]) ++ a)
      by (by rewrite <- app_assoc).
    destruct Hcur as (i & Hi & Hmin & Hbefore).
    pose proof (lookup_lt_Some _ _ _ Hi) as Hil.
    cbn [foldl].
    destruct (Z.ltb_spec (Latency (deref p x)) (Latency (deref p cur)))
      as [Hlt|Hge].
    + apply IH. exists (length pre). split; [|split].
      * by apply list_lookup_middle.
      * intros g [Hg| ->%list_elem_of_singleton]%elem_of_app; [|lia].
        specialize (Hmin g Hg). lia.
      * intros j g Hj. rewrite lookup_app_l by done. intros Hg.
        specialize (Hmin g (list_elem_of_lookup_2 _ _ _ Hg)). lia.
    + apply IH. exists i. split; [|split].
      * by rewrite lookup_app_l.
      * intros g [Hg| ->%list_elem_of_singleton]%elem_of_app; [|lia].
        by apply Hmin.
      * intros j g Hj. rewrite lookup_app_l by lia. by apply Hbefore.
Qed.

(** X11: [scheduleLHA] on a non-empty [avail] picks the first of the
    available forwarders that have the lowest latency, and changes
    nothing. *)
Theorem scheduleLHA_first_lowest dstAddr p :
  avail p ≠ [] →
  ∃ f, scheduleLHA dstAddr p = (Picked f, p) ∧ firstLowest p (avail p) f.
Proof.
  intros Hne. unfold scheduleLHA.
  destruct (avail p) as [|f0 a] eqn:Ha; [done|].
  eexists. split; [reflexivity|].
  cbn [foldl]. rewrite Z.ltb_irrefl.
  apply (lowest_firstLowest p [f0] a f0).
  exists 0%nat. split; [done|]. split.
  - intros g ->%list_elem_of_singleton. lia.
  - intros j g Hj. lia.
Qed.

(** Round robin for as many requests as [nows] has. *)
Lemma NextDialers_roundRobin p nows dstAddr :
  next p = nextRR → avail p ≠ [] →
  0 ≤ index p → index p + Z.of_nat (length nows) < 2 ^ 32 →
  (∀ now, now ∈ nows → allowedAt (config p) now = true) →
  NextDialers nows dstAddr p
  = (λ k : nat, atMod (avail p) (index p + 1 + Z.of_nat k))
      <$> seq 0 (length nows).
Proof.
  revert p. induction nows as [|now nows IH]; intros p Hrr Hne H0 Hlt Hallow;
    [done|].
  cbn [NextDialers]. rewrite NextDialer_unfold.
  rewrite Hallow by left. rewrite decide_False by done.
  unfold callNext. rewrite Hrr. unfold scheduleRR.
  assert (addIndex p = index p + 1) as ->.
  { unfold addIndex, uint32. apply Z.mod_small.
    simpl in Hlt. lia. }
  cbn [length seq fmap list_fmap]. f_equal.
  - f_equal. lia.
  - rewrite IH; try done; simpl in *; try lia.
    + rewrite <- fmap_S_seq, <- list_fmap_compose.
      apply list_fmap_ext. intros i k _. simpl. f_equal. lia.
    + intros t Ht. apply Hallow. by right.
Qed.

(** X12: in round-robin mode, while the counter does not wrap, as
    many allowed requests as there are available forwarders get each
    of them once: in the order of [avail], from the position after
    the counter. *)
Theorem roundRobin_cycle p nows dstAddr :
  next p = nextRR → avail p ≠ [] →
  length nows = length (avail p) →
  0 ≤ index p → index p + Z.of_nat (length (avail p)) < 2 ^ 32 →
  (∀ now, now ∈ nows → allowedAt (config p) now = true) →
  NextDialers nows dstAddr p
  = Picked
      <$> rotate (Z.to_nat ((index p + 1) mod Z.of_nat (length (avail p))))
            (avail p).
Proof.
  intros Hrr Hne Hlen H0 Hlt Hallow.
  rewrite NextDialers_roundRobin by (rewrite ?Hlen; done).
  rewrite Hlen. set (a := avail p) in *. set (n := Z.of_nat (length a)) in *.
  assert (0 < n) as Hn by (unfold n; destruct a; [done|simpl; lia]).
  apply list_eq. intros i. rewrite !list_lookup_fmap.
  destruct (decide (i < length a)%nat) as [Hi|Hi].
  - rewrite lookup_seq_lt by done. simpl.
    rewrite lookup_rotate_r by done.
    destruct (atMod_Picked a (index p + 1 + Z.of_nat i) Hne) as (f & Hf & ->);
      [fold n; lia|].
    unfold rotate_nat_add. fold n.
    rewrite Z2Nat.id by (apply Z.mod_pos_bound; lia).
    rewrite Zplus_mod_idemp_l. fold n in Hf. by rewrite Hf.
  - rewrite (lookup_ge_None_2 (seq _ _)) by (rewrite length_seq; lia).
    rewrite (lookup_ge_None_2 (rotate _ _)) by (rewrite length_rotate; lia).
    done.
Qed.

End schedule_extras.






Lemma scheduleLHA_first_lowest_witness :
  let p := strategy.SetLatency 1%nat 7 sample.groupTiers in
  strategy.avail p ≠ []
  ∧ ∃ f, strategy.scheduleLHA "x:80" p = (strategy.Picked f, p)
         ∧ firstLowest p (strategy.avail p) f.
Proof.
  intros p.
  assert (strategy.avail p ≠ []) as Hne by done.
  split; [done|]. apply (scheduleLHA_first_lowest "x:80" p Hne).
Defined.

Lemma roundRobin_cycle_witness :
  let p := sample.groupABC in
  let t := timewindow.mkTime 1 12 30 in
  NextDialers [t; t; t] "x:80" p
  = strategy.Picked
      <$> rotate (Z.to_nat ((strategy.index p + 1)
                            mod Z.of_nat (length (strategy.avail p))))
            (strategy.avail p).
Proof.
  intros p t.
  apply (roundRobin_cycle p [t; t; t] "x:80"); done.
Defined.

(** ** The health check, further *)

Section probe_extras.
Import strategy.

Lemma onStatusChanged_store f p : store (onStatusChanged f p) = store p.
Proof.
  unfold onStatusChanged.
  set (r := if Enabled (deref p f) then _ else _).
  assert (store r = store p) as Hr.
  { unfold r. repeat case_match; rewrite ?(proj1 (init_state _)); done. }
  destruct (avail r); [by rewrite (proj1 (init_state r))|done].
Qed.

Lemma fire_store f p : store (fire f p) = store p.
Proof.
  unfold fire. generalize (handlers (deref p f)). intros hs.
  revert p. induction hs as [|[] hs IH]; intros p; simpl; [done|].
  by rewrite IH, onStatusChanged_store.
Qed.

Lemma Disable_deref f p g :
  deref (Disable f p) g
  = if decide (f = g ∧ (f < length (store p))%nat)
    then setDisabled true (deref p f) else deref p g.
Proof.
  unfold Disable. destruct (disabled (deref p f)) eqn:Hd.
  - case_decide as Hx; [|done]. destruct Hx as [<- _].
    destruct (deref p f). simpl in Hd. by subst.
  - unfold deref. rewrite fire_store. simpl. apply list_lookup_total_alter.
Qed.

Lemma Enable_deref f p g :
  deref (Enable f p) g
  = if decide (f = g ∧ (f < length (store p))%nat)
    then setFailures 0 (setDisabled false (deref p f)) else deref p g.
Proof.
  unfold Enable. destruct (disabled (deref p f)) eqn:Hd.
  - unfold deref. simpl. rewrite fire_store. simpl.
    rewrite !list_lookup_total_alter, length_alter.
    destruct (decide (f = g ∧ (f < length (store p))%nat)) as [[<- ?]|Hx].
    + by rewrite !decide_True.
    + by rewrite !decide_False.
  - unfold deref. simpl. rewrite list_lookup_total_alter.
    destruct (decide (f = g ∧ (f < length (store p))%nat)) as [[<- ?]|Hx];
      [|by rewrite decide_False].
    rewrite decide_True by done.
    unfold deref in Hd. destruct (store p !!! f). simpl in Hd. by subst.
Qed.

(** X13: a probe of a forwarder of the store returns the status in
    which it leaves the forwarder; it stores the time of the read as
    the latency exactly when the four bytes read are [HTTP], also when
    the probe is then judged too slow; it keeps the priority, and it
    changes no other forwarder. *)
Theorem checkWebSite_effect io f website timeout p :
  (f < length (store p))%nat →
  Enabled (deref (checkWebSite io f website timeout p).2 f)
  = (checkWebSite io f website timeout p).1
  ∧ Priority (deref (checkWebSite io f website timeout p).2 f)
    = Priority (deref p f)
  ∧ Latency (deref (checkWebSite io f website timeout p).2 f)
    = match io with
      | readDone buf readTime =>
          if String.eqb "HTTP" buf then readTime else Latency (deref p f)
      | _ => Latency (deref p f)
      end
  ∧ ∀ g, g ≠ f →
         deref (checkWebSite io f website timeout p).2 g = deref p g.
Proof.
  intros Hf.
  assert (∀ q, length (store q) = length (store p) →
               Enabled (deref (Disable f q) f) = false
               ∧ Priority (deref (Disable f q) f) = Priority (deref q f)
               ∧ Latency (deref (Disable f q) f) = Latency (deref q f)
               ∧ ∀ g, g ≠ f → deref (Disable f q) g = deref q g) as Hdis.
  { intros q Hq. rewrite Disable_deref, decide_True by (split; [done|lia]).
    repeat split. intros g Hg. rewrite Disable_deref, decide_False; [done|].
    by intros [-> _]. }
  assert (∀ q, length (store q) = length (store p) →
               Enabled (deref (Enable f q) f) = true
               ∧ Priority (deref (Enable f q) f) = Priority (deref q f)
               ∧ Latency (deref (Enable f q) f) = Latency (deref q f)
               ∧ ∀ g, g ≠ f → deref (Enable f q) g = deref q g) as Hen.
  { intros q Hq. rewrite Enable_deref, decide_True by (split; [done|lia]).
    repeat split. intros g Hg. rewrite Enable_deref, decide_False; [done|].
    by intros [-> _]. }
  unfold checkWebSite.
  destruct io as [| | |buf readTime]; try (by apply Hdis).
  destruct (String.eqb "HTTP" buf); cbn [negb]; [|by apply Hdis].
  set (q := SetLatency f readTime p).
  assert (length (store q) = length (store p)) as Hq
    by (unfold q; simpl; apply length_alter).
  assert (deref q f = setLatency readTime (deref p f)) as Hqf.
  { unfold q, SetLatency. rewrite deref_alter. by rewrite decide_True. }
  assert (∀ g, g ≠ f → deref q g = deref p g) as Hqg.
  { intros g Hg. unfold q, SetLatency. rewrite deref_alter.
    rewrite decide_False; [done|]. by intros [-> _]. }
  destruct (timeout <? readTime); cbn [fst snd].
  - destruct (Hdis q Hq) as (-> & -> & -> & Hg). rewrite Hqf.
    repeat split. intros g Hne. by rewrite Hg, Hqg.
  - destruct (Hen q Hq) as (-> & -> & -> & Hg). rewrite Hqf.
    repeat split. intros g Hne. by rewrite Hg, Hqg.
Qed.

(** X14: the turns of [check] in which nothing is done.  For an
    enabled forwarder of a group with [CheckDisabledOnly], and for a
    forwarder below the active priority once [wait] is positive, no
    probe is made and [wait] stays as it is, so that from [wait = 0]
    the loop goes on without a pause. *)
Theorem checkTurns_idle ios f wait p :
  (Enabled (deref p f) = true ∧ CheckDisabledOnly (config p) = true)
  ∨ (0 < wait ∧ Priority (deref p f) < priority p) →
  checkTurns ios f wait p = (wait, p).
Proof.
  intros Hidle. induction ios as [|io ios IH]; [done|].
  cbn [checkTurns]. unfold checkTurn.
  destruct Hidle as [[-> ->]|[Hw Hp]].
  - cbn [andb]. by destruct (_ && _).
  - destruct (Z.ltb_spec 0 wait); [|lia].
    destruct (Z.ltb_spec (Priority (deref p f)) (priority p)); [|lia].
    done.
Qed.

(** X15: whatever the probes give, the factor [wait] of the pause of
    [check] is 0 (before the first probe only), 1, 2, 4, 8 or 16: the
    8-bit product never wraps and the pause is 16 intervals at most. *)
Theorem check_wait_steps ios f p :
  waitValue (check ios f p).1 ∧ 0 ≤ (check ios f p).1 ≤ 16.
Proof.
  pose proof (waitValue_check ios f p) as Hw. split; [done|].
  unfold waitValue in Hw. lia.
Qed.

End probe_extras.

Lemma checkWebSite_effect_witness :
  let p := sample.groupAB in
  let r := strategy.checkWebSite (strategy.readDone "HTTP" 20000000000) 1%nat
             "www.apple.com:80" (strategy.seconds 10) p in
  (1 < length (strategy.store p))%nat
  ∧ r.1 = false
  ∧ strategy.Enabled (strategy.deref r.2 1%nat) = false
  ∧ strategy.Latency (strategy.deref r.2 1%nat) = 20000000000
  ∧ strategy.deref r.2 0%nat = strategy.deref p 0%nat.
Proof.
  intros p r.
  assert (1 < length (strategy.store p))%nat as Hf by (simpl; lia).
  destruct (checkWebSite_effect (strategy.readDone "HTTP" 20000000000) 1%nat
              "www.apple.com:80" (strategy.seconds 10) p Hf)
    as (He & _ & Hl & Hg).
  split; [done|]. split; [reflexivity|]. fold r in He, Hl, Hg.
  split; [by rewrite He|]. split; [by rewrite Hl|]. by apply Hg.
Defined.

Lemma checkTurns_idle_witness :
  let c := strategy.mkConfig "rr" "www.apple.com" 30 10 true 3 3 0 "" [] [] in
  let p := strategy.withConfig c sample.groupAB in
  strategy.Enabled (strategy.deref p 0%nat) = true
  ∧ strategy.CheckDisabledOnly (strategy.config p) = true
  ∧ strategy.check [strategy.dialError; strategy.readError] 0%nat p = (0, p).
Proof.
  intros c p. split; [reflexivity|]. split; [reflexivity|].
  apply (checkTurns_idle [strategy.dialError; strategy.readError] 0%nat 0 p).
  left. split; reflexivity.
Defined.

(** ** Construction, further *)

Section construction_extras.
Import strategy.
Context `{ForwarderSource} `{GoSort} `{!GoSortLaws} `{!ForwarderSourceLaws}.

Lemma IndexByte_append s t c :
  0 ≤ strings.IndexByte t c → 0 ≤ strings.IndexByte (s +:+ t) c.
Proof.
  intros Ht. induction s as [|a s IH]; [by rewrite append_empty_l|].
  rewrite append_cons. simpl.
  destruct (Ascii.eqb a c); [done|].
  destruct (Z.ltb_spec (strings.IndexByte (s +:+ t) c) 0); lia.
Qed.

Lemma IndexByte_range s c : -1 ≤ strings.IndexByte s c.
Proof.
  induction s as [|a s IH]; simpl; [done|].
  destruct (Ascii.eqb a c); [done|].
  destruct (Z.ltb_spec (strings.IndexByte s c) 0); lia.
Qed.

Lemma newProxy_config name fs c p :
  newProxy name fs c = Some p →
  config p
  = if strings.IndexByte (CheckWebSite c) ":" =? -1
    then withCheckWebSite (CheckWebSite c +:+ ":80") c else c.
Proof.
  unfold newProxy.
  destruct (ForwarderFromURL "reject://" "" 0 0) as [rej|]; [|done].
  cbv zeta. intros [= <-].
  set (p0 := mkProxy name c _ _ [] (length fs) 0 0 nextRR).
  destruct (init_state p0) as (_ & _ & _ & Hc & _).
  rewrite Hc. change (config p0) with c.
  match goal with
  | |- config (register ?l ?q) = _ =>
      destruct (register_state l q) as (_ & _ & _ & _ & _ & _ & _ & ->)
  end.
  destruct (_ =? -1); simpl; by rewrite ?Hc.
Qed.

Lemma newProxy_fwdrs name fs c p :
  newProxy name fs c = Some p →
  fwdrs p ≡ₚ seq 0 (length fs) ∧ next p = schedulerOf (Strategy c)
  ∧ ∀ x, (x < length fs)%nat →
         deref p x = AddHandler onStatusChangedOfGroup (fs !!! x).
Proof.
  intros (rej & q & Hrej & -> & Hq)%newProxy_unfold.
  cbv zeta in Hq. destruct Hq as (Hst & Hfw & _ & _ & _ & _ & Hnx & _).
  simpl in Hfw.
  destruct (register_state (fwdrs q) q) as (Rf & _ & _ & _ & _ & _ & Rn & _).
  assert (fwdrs q ≡ₚ seq 0 (length fs)) as Hperm
    by (rewrite Hfw; apply sortSort_Permutation).
  split; [by rewrite Rf|]. split; [by rewrite Rn|].
  intros x Hx. rewrite register_deref by (rewrite Hperm; apply NoDup_seq).
  rewrite decide_True.
  - unfold deref. rewrite Hst. by rewrite lookup_total_app_l.
  - split; [rewrite Hperm, elem_of_seq; lia|].
    rewrite Hst, length_app. simpl. lia.
Qed.

(** X16: after [NewProxy] the address of the site to probe has a
    port: the one given, or 80 when the configured site has no
    colon. *)
Theorem NewProxy_CheckWebSite_port name s c p :
  NewProxy name s c = Some p →
  CheckWebSite (config p)
  = (if strings.IndexByte (CheckWebSite c) ":" =? -1
     then CheckWebSite c +:+ ":80" else CheckWebSite c)
  ∧ 0 ≤ strings.IndexByte (CheckWebSite (config p)) ":".
Proof.
  unfold NewProxy. destruct (forwardersOf s c) as [fs|]; [|done]. simpl.
  assert (∀ c' fs', CheckWebSite c' = CheckWebSite c →
            newProxy name fs' c' = Some p →
            CheckWebSite (config p)
            = (if strings.IndexByte (CheckWebSite c) ":" =? -1
               then CheckWebSite c +:+ ":80" else CheckWebSite c)
            ∧ 0 ≤ strings.IndexByte (CheckWebSite (config p)) ":") as Hnew.
  { intros c' fs' Hc ->%newProxy_config. rewrite Hc.
    pose proof (IndexByte_range (CheckWebSite c) ":") as Hr.
    destruct (Z.eqb_spec (strings.IndexByte (CheckWebSite c) ":") (-1))
      as [Heq|Hne]; simpl.
    - split; [done|]. by apply IndexByte_append.
    - rewrite Hc. split; [done|lia]. }
  destruct fs; by apply Hnew.
Qed.

(** X17: without a forwarder URL [NewProxy] makes a group of the
    direct forwarder alone, with the group's callback as its only
    change, in round-robin mode whatever strategy was configured. *)
Theorem NewProxy_direct name c p :
  NewProxy name [] c = Some p →
  fwdrs p = [0%nat]
  ∧ deref p 0%nat
    = AddHandler onStatusChangedOfGroup
        (DirectForwarder (IntFace c) (seconds (DialTimeout c))
           (seconds (RelayTimeout c)))
  ∧ next p = nextRR ∧ Strategy (config p) = "rr".
Proof.
  unfold NewProxy. simpl. intros Hp.
  pose proof (newProxy_config _ _ _ _ Hp) as Hc.
  destruct (newProxy_fwdrs _ _ _ _ Hp) as (Hperm & Hnx & Hd).
  split; [by apply Permutation_singleton_r in Hperm|].
  split; [apply (Hd 0%nat); simpl; lia|]. split; [done|].
  rewrite Hc. by destruct (_ =? -1).
Qed.

(** X18: the forwarders of the group that [NewProxy] returns are the
    objects made from the URLs (one direct forwarder when there is no
    URL), and [Check] starts one [check] for each of them when they
    are two or more, and none for a single forwarder. *)
Theorem NewProxy_checkers name s c p :
  NewProxy name s c = Some p →
  fwdrs p ≡ₚ seq 0 (Nat.max 1 (length s))
  ∧ Check p = if decide (2 ≤ length s)%nat then fwdrs p else [].
Proof.
  unfold NewProxy.
  destruct (forwardersOf s c) as [fs|] eqn:Hfs; [|done]. simpl.
  apply forwardersOf_spec in Hfs as [Hlen _].
  assert (∀ c' fs', (0 < length fs')%nat →
            length fs' = Nat.max 1 (length s) →
            newProxy name fs' c' = Some p →
            fwdrs p ≡ₚ seq 0 (Nat.max 1 (length s))
            ∧ Check p = if decide (2 ≤ length s)%nat then fwdrs p else [])
    as Hnew.
  { intros c' fs' Hpos Hl (Hperm & _)%newProxy_fwdrs.
    rewrite Hl in Hperm. split; [done|]. unfold Check.
    rewrite (Permutation_length Hperm), length_seq.
    destruct (Z.ltb_spec 1 (Z.of_nat (Nat.max 1 (length s))));
      case_decide; try done; lia. }
  destruct fs as [|f0 fs]; apply Hnew; simpl in *; lia.
Qed.

End construction_extras.

Lemma NewProxy_CheckWebSite_port_witness :
  ∃ p, sample.NewProxy "g" ["A"; "B"] sample.config = Some p
       ∧ strategy.CheckWebSite (strategy.config p) = "www.apple.com:80"
       ∧ 0 ≤ strings.IndexByte (strategy.CheckWebSite (strategy.config p)) ":".
Proof.
  exists sample.groupAB. split; [reflexivity|].
  destruct (@NewProxy_CheckWebSite_port sample.urls sample.bySort
              "g" ["A"; "B"] sample.config sample.groupAB eq_refl)
    as [Hw Hport].
  split; [by rewrite Hw|done].
Defined.

Lemma NewProxy_direct_witness :
  ∃ p, sample.NewProxy "default" []
         (strategy.mkConfig "ha" "www.apple.com" 30 10 false 3 3 0 "" [] [])
       = Some p
       ∧ strategy.fwdrs p = [0%nat] ∧ strategy.next p = strategy.nextRR
       ∧ strategy.Strategy (strategy.config p) = "rr".
Proof.
  eexists. split; [reflexivity|].
  destruct (@NewProxy_direct sample.urls sample.bySort bySort_laws
              "default"
              (strategy.mkConfig "ha" "www.apple.com" 30 10 false 3 3 0 "" [] [])
              _ eq_refl) as (Hf & _ & Hn & Hs).
  split; [exact Hf|]. split; [exact Hn|exact Hs].
Defined.

Lemma NewProxy_checkers_witness :
  ∃ p, sample.NewProxy "g" ["A"; "B"; "C"] sample.config = Some p
       ∧ strategy.fwdrs p ≡ₚ [0; 1; 2]%nat
       ∧ strategy.Check p = strategy.fwdrs p.
Proof.
  exists sample.groupABC. split; [reflexivity|].
  apply (@NewProxy_checkers sample.urls sample.bySort bySort_laws urls_laws
           "g" ["A"; "B"; "C"] sample.config sample.groupABC eq_refl).
Defined.

(** ** The rule router, further *)

Section suffix_more.

Lemma firstHit_None (m : gmap string nat) keys :
  firstHit m keys = None ↔ ∀ k, k ∈ keys → m !! k = None.
Proof.
  induction keys as [|k keys IH]; simpl.
  - split; [by intros _ k ?%elem_of_nil|done].
  - destruct (m !! k) eqn:Hk.
    + split; [done|]. intros Hall. rewrite Hall in Hk; [done|left].
    + rewrite IH. split.
      * intros Hall x [->|Hx]%elem_of_cons; [done|by apply Hall].
      * intros Hall x Hx. apply Hall. by right.
Qed.

Lemma firstHit_Some (m : gmap string nat) keys g :
  firstHit m keys = Some g → ∃ k, k ∈ keys ∧ m !! k = Some g.
Proof.
  induction keys as [|k keys IH]; simpl; [done|].
  destruct (m !! k) eqn:Hk.
  - intros [= <-]. exists k. split; [left|done].
  - intros (x & Hx & Hm)%IH. exists x. split; [by right|done].
Qed.

(** The suffixes after the dots, by what they are. *)
Lemma elem_of_afterDots s k :
  k ∈ afterDots s ↔ ∃ pre, s = pre +:+ String "." k.
Proof.
  induction s as [|c s IH]; simpl.
  - split; [by intros ?%elem_of_nil|]. intros [[|a pre] Hpre]; done.
  - split.
    + destruct (Ascii.eqb_spec c ".") as [->|Hc].
      * intros [->|Hk]%elem_of_cons; [by exists ""|].
        apply IH in Hk as [pre ->]. exists (String "." pre).
        by rewrite append_cons.
      * intros [pre ->]%IH. exists (String c pre). by rewrite append_cons.
    + intros [[|a pre] Hpre].
      * rewrite append_empty_l in Hpre. injection Hpre as -> ->.
        rewrite Ascii.eqb_refl. left.
      * rewrite append_cons in Hpre. injection Hpre as -> Hs.
        assert (k ∈ afterDots s) as Hk by (apply IH; by exists pre).
        destruct (Ascii.eqb a "."); [by right|done].
Qed.

Lemma elem_of_dotSuffixes host k :
  k ∈ dotSuffixes host ↔ k = host ∨ ∃ pre, host = pre +:+ String "." k.
Proof. unfold dotSuffixes. by rewrite elem_of_cons, elem_of_afterDots. Qed.

(** The stores of [AddDomainIP] over some keys: the last one stays. *)
Lemma foldl_storeIP dm ip im keys :
  foldl (storeIP dm ip) im keys
  = match firstHit dm (rev keys) with
    | Some g => <[ip := g]> im
    | None => im
    end.
Proof.
  induction keys as [|k keys IH] using rev_ind; [done|].
  rewrite foldl_app, rev_app_distr. simpl. unfold storeIP at 1.
  destruct (dm !! k) as [g|]; [|done].
  rewrite IH. destruct (firstHit dm (rev keys)); [|done].
  apply insert_insert_eq.
Qed.

End suffix_more.

Section router_more.
Context `{GoUnicode} `{GoNet}.
Import rule.

(** The loop of [AddDomainIP] ends, after a store for each of its
    keys that the domain map has. *)
Lemma storeDomainIP_keysBelow dm domain ip im i fuel :
  (i ≤ String.length domain)%nat → (i + 2 ≤ fuel)%nat →
  storeDomainIP fuel dm domain ip im (Z.of_nat i)
  = Some (foldl (storeIP dm ip) im (keysBelow domain i)).
Proof.
  revert fuel im. induction i as [|i IH]; intros fuel im Hi Hfuel.
  - destruct fuel as [|[|fuel]]; [lia..|].
    simpl. unfold strings.sliceFrom, storeIP. simpl.
    by destruct (dm !! domain).
  - destruct fuel as [|fuel]; [lia|].
    destruct (get_lt i domain) as [c Hc]; [lia|].
    rewrite keysBelow_S, Hc.
    simpl storeDomainIP.
    destruct (Z.eqb_spec (Z.of_nat (S i)) (-1)) as [|_]; [lia|].
    unfold strings.sliceTo, strings.sliceFrom. rewrite Nat2Z.id.
    rewrite (takeN_S i domain c Hc), LastIndexByte_snoc.
    rewrite length_takeN by lia.
    destruct (Ascii.eqb c ".").
    + replace (Z.to_nat (Z.of_nat i + 1)) with (S i) by lia.
      cbn [foldl]. unfold storeIP at 2.
      destruct (dm !! strings.dropN (S i) domain); apply IH; lia.
    + rewrite <- (IH (S fuel)) by lia.
      simpl storeDomainIP.
      destruct (Z.eqb_spec (Z.of_nat i) (-1)) as [|_]; [lia|].
      unfold strings.sliceTo, strings.sliceFrom. by rewrite Nat2Z.id.
Qed.

Lemma AddDomainIP_unfold domain ip (p : Proxy) :
  AddDomainIP domain ip p
  = Some (if String.eqb ip "" then p
          else mkProxy _ (proxy p) (proxies p) (domainMap p)
                 (match firstHit (domainMap p)
                          (dotSuffixes (strings.ToLower domain)) with
                  | Some g => <[ip := g]> (ipMap p)
                  | None => ipMap p
                  end) (cidrMap p)).
Proof.
  unfold AddDomainIP. destruct (String.eqb ip ""); [done|].
  unfold strings.len. rewrite storeDomainIP_keysBelow by lia. simpl.
  by rewrite keysBelow_dotSuffixes, foldl_storeIP, rev_involutive.
Qed.

(** X19: [AddDomainIP] always returns, and changes the IP map only:
    when [ip] is not empty and a dot-suffix of the lower-cased domain
    is in the domain map, [ip] is given the group of the longest such
    suffix (the last store of the loop); otherwise nothing changes. *)
Theorem AddDomainIP_longest_suffix domain ip (p : Proxy) :
  ∃ p', AddDomainIP domain ip p = Some p'
        ∧ proxy p' = proxy p ∧ proxies p' = proxies p
        ∧ domainMap p' = domainMap p ∧ cidrMap p' = cidrMap p
        ∧ ipMap p'
          = match firstHit (domainMap p)
                    (dotSuffixes (strings.ToLower domain)) with
            | Some g => if String.eqb ip "" then ipMap p
                        else <[ip := g]> (ipMap p)
            | None => ipMap p
            end.
Proof.
  rewrite AddDomainIP_unfold. eexists. split; [done|].
  by destruct (firstHit (domainMap p) _), (String.eqb ip "").
Qed.

(** X20: an address learnt for a domain is then routed as the domain
    itself would be if the longest of its dot-suffixes in the domain
    map were taken: after [AddDomainIP domain ip], a request for [ip]
    goes to the group of that suffix. *)
Theorem AddDomainIP_then_nextProxy domain ip (p p' : Proxy) g dstAddr port x :
  ip ≠ "" →
  firstHit (domainMap p) (dotSuffixes (strings.ToLower domain)) = Some g →
  AddDomainIP domain ip p = Some p' →
  net.SplitHostPort dstAddr = Some (ip, port) →
  ParseIP ip = Some x → IP_String x = ip →
  nextProxy dstAddr p' = Some (ruleGroup g).
Proof.
  intros Hip Hg Hadd Hsplit Hparse Hstr.
  rewrite AddDomainIP_unfold, Hg in Hadd.
  apply String.eqb_neq in Hip. rewrite Hip in Hadd. injection Hadd as <-.
  unfold nextProxy. rewrite Hsplit, Hparse, Hstr. simpl.
  by rewrite lookup_insert_eq.
Qed.

(** X21: a host that is not a numeric IP goes to the default group
    exactly when the domain map has neither the lower-cased host nor
    any part of it that follows one of its dots: a rule on a domain
    holds for the domain and for the names below it, and for no other
    name that merely ends with the same letters. *)
Theorem nextProxy_default_iff dstAddr host port (p : Proxy) :
  net.SplitHostPort dstAddr = Some (host, port) →
  ParseIP host = None →
  nextProxy dstAddr p = Some defaultGroup
  ↔ ∀ k, (k = strings.ToLower host
          ∨ ∃ pre, strings.ToLower host = pre +:+ String "." k) →
         domainMap p !! k = None.
Proof.
  intros Hsplit Hip. unfold nextProxy. rewrite Hsplit, Hip.
  rewrite lookupDomain_dotSuffixes.
  setoid_rewrite <- elem_of_dotSuffixes.
  destruct (firstHit _ _) as [g|] eqn:Hhit; simpl.
  - split; [done|]. intros Hall.
    apply firstHit_Some in Hhit as (k & Hk & Hm).
    rewrite Hall in Hm; [done|]. by rewrite <- Permutation_rev in Hk.
  - split; [|done]. intros _ k Hk.
    apply (proj1 (firstHit_None _ _) Hhit). by rewrite <- Permutation_rev.
Qed.

End router_more.

Section router_groups.
Context `{GoUnicode} `{GoNet} `{GoSort} `{strategy.ForwarderSource}.
Context `{!GoSortLaws} `{!ForwarderSourceLaws}.
Import rule.

Lemma foldl_insert_lookup {A} (f : A → string) (i : nat)
    (m : gmap string nat) (ds : list A) k :
  foldl (λ m d, <[f d := i]> m) m ds !! k
  = if decide (k ∈ f <$> ds) then Some i else m !! k.
Proof.
  revert m. induction ds as [|d ds IH]; intros m.
  - cbn [foldl]. case_decide as Hk; [|done].
    by apply elem_of_nil in Hk.
  - cbn [foldl]. rewrite IH, fmap_cons.
    destruct (decide (k ∈ f <$> ds)) as [Hk|Hk].
    + rewrite decide_True; [done|]. by right.
    + destruct (decide (k = f d)) as [->|Hne].
      * rewrite decide_True by left. apply lookup_insert_eq.
      * rewrite decide_False by (by intros [?|?]%elem_of_cons).
        by apply lookup_insert_ne.
Qed.

Lemma foldl_cidr (i : nat) (l : list (netIPNet * nat)) ss x :
  x ∈ foldl (λ l s, match ParseCIDR s with
                    | Some cidr => l ++ [(cidr, i)]
                    | None => l
                    end) l ss →
  x ∈ l ∨ x.2 = i.
Proof.
  revert l. induction ss as [|s ss IH]; intros l; simpl; [by left|].
  intros [Hx|Hx]%IH; [|by right].
  destruct (ParseCIDR s); [|by left].
  apply elem_of_app in Hx as [Hx| ->%list_elem_of_singleton];
    [by left|by right].
Qed.

Lemma index_domainMap r (rd : Proxy) i k :
  domainMap (index i r rd) !! k
  = if decide (k ∈ strings.ToLower <$> Domain r) then Some i
    else domainMap rd !! k.
Proof. unfold index. simpl. apply foldl_insert_lookup. Qed.

Lemma index_validRouter r (rd : Proxy) sd :
  validRouter rd →
  validRouter
    (index (length (proxies rd)) r
       (mkProxy _ (proxy rd) (proxies rd ++ [sd])
          (domainMap rd) (ipMap rd) (cidrMap rd))).
Proof.
  intros (Hd & Hi & Hc). unfold validRouter, index. simpl.
  rewrite length_app. simpl. split; [|split].
  - intros k i. rewrite foldl_insert_lookup.
    case_decide; [intros [= <-]; lia|]. intros ?%Hd. lia.
  - intros k i.
    pose proof (foldl_insert_lookup (λ x : string, x) (length (proxies rd))
                  (ipMap rd) (IP r) k) as Hl.
    simpl in Hl. rewrite Hl.
    case_decide; [intros [= <-]; lia|]. intros ?%Hi. lia.
  - intros c i [Hx|Hx]%foldl_cidr.
    + apply Hc in Hx. lia.
    + simpl in Hx. lia.
Qed.

(** What the loop of [NewProxy] leaves, from the state [rd]. *)
Lemma addRules_spec rules (rd p : Proxy) :
  addRules rules rd = Some p →
  proxy p = proxy rd
  ∧ (∃ sds, proxies p = proxies rd ++ sds
            ∧ Forall2 (λ r sd, strategy.NewProxy (Name r) (Forward r)
                                 (StrategyConfig r) = Some sd) rules sds)
  ∧ (validRouter rd → validRouter p).
Proof.
  revert rd. induction rules as [|r rules IH]; intros rd; simpl.
  - intros [= <-]. split; [done|]. split; [|done].
    exists []. by rewrite app_nil_r.
  - destruct (strategy.NewProxy _ _ _) as [sd|] eqn:Hsd; [|done]. simpl.
    intros (Hp & (sds & Hsds & Hall) & Hv)%IH.
    split; [done|]. split.
    + exists (sd :: sds). split; [|by constructor].
      rewrite Hsds. simpl. by rewrite <- app_assoc.
    + intros Hrd. by apply Hv, index_validRouter.
Qed.

Lemma addRules_domainMap rules (rd p : Proxy) k i :
  addRules rules rd = Some p →
  domainMap p !! k = Some i
  ↔ (∃ j r, i = (length (proxies rd) + j)%nat ∧ rules !! j = Some r
            ∧ k ∈ strings.ToLower <$> Domain r
            ∧ ∀ j' r', (j < j')%nat → rules !! j' = Some r' →
                       k ∉ strings.ToLower <$> Domain r')
    ∨ (domainMap rd !! k = Some i
       ∧ ∀ j' r', rules !! j' = Some r' →
                  k ∉ strings.ToLower <$> Domain r').
Proof.
  revert rd. induction rules as [|r0 rules IH]; intros rd; simpl.
  - intros [= <-]. split; [by right|].
    intros [(j & r & _ & Hj & _)|[Hk _]]; [by rewrite lookup_nil in Hj|done].
  - destruct (strategy.NewProxy _ _ _) as [sd|] eqn:Hsd; [|done]. simpl.
    intros Hp. rewrite (IH _ Hp). clear IH Hp.
    rewrite index_domainMap. simpl. rewrite length_app. simpl.
    set (K := λ r : Config, strings.ToLower <$> Domain r).
    fold (K r0). split.
    + intros [(j & r & -> & Hj & Hk & Hlast)|[Hk Hnone]].
      * left. exists (S j), r. split; [lia|]. split; [done|].
        split; [done|]. intros [|j'] r' Hlt; [lia|]. simpl.
        apply Hlast. lia.
      * destruct (decide (k ∈ K r0)) as [Hk0|Hk0].
        -- injection Hk as <-. left. exists 0%nat, r0.
           split; [lia|]. split; [done|]. split; [done|].
           intros [|j'] r' Hlt; [lia|]. simpl. apply Hnone.
        -- right. split; [done|].
           intros [|j'] r'; simpl; [by intros [= <-]|apply Hnone].
    + intros [(j & r & -> & Hj & Hk & Hlast)|[Hk Hnone]].
      * destruct j as [|j]; simpl in Hj.
        -- injection Hj as <-. right. rewrite decide_True by done.
           split; [f_equal; lia|].
           intros j' r' Hj'. apply (Hlast (S j') r'); [lia|done].
        -- left. exists j, r. split; [lia|]. split; [done|].
           split; [done|]. intros j' r' Hlt Hj'.
           apply (Hlast (S j') r'); [lia|done].
      * right. pose proof (Hnone 0%nat r0 eq_refl) as Hk0.
        rewrite decide_False by done. split; [done|].
        intros j' r' Hj'. by apply (Hnone (S j') r').
Qed.

(** X22: [NewProxy] makes the group of each rule by the rule's own
    call of [strategy.NewProxy], in the order of the rules, keeps the
    default group, and every entry of its three maps is one of these
    groups. *)
Theorem NewProxy_rule_groups rules D (p : Proxy) :
  NewProxy rules D = Some p →
  proxy p = D
  ∧ Forall2 (λ r sd, strategy.NewProxy (Name r) (Forward r)
                       (StrategyConfig r) = Some sd) rules (proxies p)
  ∧ validRouter p.
Proof.
  intros (Hp & (sds & Hsds & Hall) & Hv)%addRules_spec.
  simpl in *. subst. split; [done|]. split; [done|].
  apply Hv. unfold validRouter. simpl.
  split; [|split]; [by intros ? ? ?%lookup_empty_Some..|].
  by intros ? ? ?%elem_of_nil.
Qed.

(** X23: after [NewProxy] a key of the domain map belongs to the last
    of the rules that list it, letter case apart: the key [k] gives
    the group of the rule [i] exactly when a domain of that rule is
    [k] in lower case and no later rule has such a domain. *)
Theorem NewProxy_domain_last_rule rules D (p : Proxy) k i :
  NewProxy rules D = Some p →
  domainMap p !! k = Some i
  ↔ (∃ r, rules !! i = Some r ∧ k ∈ strings.ToLower <$> Domain r)
    ∧ ∀ j r', (i < j)%nat → rules !! j = Some r' →
              k ∉ strings.ToLower <$> Domain r'.
Proof.
  intros Hp. rewrite (addRules_domainMap _ _ _ k i Hp). simpl. split.
  - intros [(j & r & -> & Hj & Hk & Hlast)|[Hk _]];
      [|by apply lookup_empty_Some in Hk].
    split; [by exists r|done].
  - intros [(r & Hi & Hk) Hlast]. left. by exists i, r.
Qed.

Lemma NewProxy_routerOK rules D (p : Proxy) :
  NewProxy rules D = Some p → groupOK D →
  (∀ r, r ∈ rules → Z.of_nat (length (Forward r)) < 2 ^ 32) →
  routerOK p.
Proof.
  intros (Hp & (sds & Hsds & Hall) & Hv)%addRules_spec HD Hsmall.
  simpl in *. subst sds. split; [by rewrite Hp|]. split.
  - apply Forall_lookup. intros i sd Hi.
    destruct (Forall2_lookup_r _ _ _ _ _ Hall Hi) as (r & Hr & Hnew).
    split; [by eapply strategy.reach_NewProxy|].
    apply NewProxy_groupInv in Hnew as [_ ->].
    specialize (Hsmall r (list_elem_of_lookup_2 _ _ _ Hr)). lia.
  - apply Hv. unfold validRouter. simpl.
    split; [|split]; [by intros ? ? ?%lookup_empty_Some..|].
    by intros ? ? ?%elem_of_nil.
Qed.

Lemma rangeCIDR_elem (l : list (netIPNet * nat)) ip g :
  rangeCIDR l ip = Some g → ∃ c, (c, g) ∈ l.
Proof.
  induction l as [|[c i] l IH]; simpl; [done|].
  destruct (IPNet_Contains c ip).
  - intros [= <-]. exists c. left.
  - intros [c' Hc']%IH. exists c'. by right.
Qed.

(** [nextProxy] returns, with a group of the router. *)
Lemma nextProxy_valid dstAddr (p : Proxy) :
  validRouter p →
  ∃ g, nextProxy dstAddr p = Some g
       ∧ match g with
         | defaultGroup => True
         | ruleGroup i => (i < length (proxies p))%nat
         end.
Proof.
  intros (Hd & Hi & Hc). unfold nextProxy.
  destruct (net.SplitHostPort dstAddr) as [[host port]|]; [|by eexists].
  assert (∃ g,
    match lookupDomain (String.length (strings.ToLower host) + 2)
            (domainMap p) (strings.ToLower host)
            (strings.len (strings.ToLower host)) with
    | hit g => Some (ruleGroup g)
    | miss => Some defaultGroup
    | unfinished => None
    end = Some g
    ∧ match g with
      | defaultGroup => True
      | ruleGroup i => (i < length (proxies p))%nat
      end) as Hdomain.
  { rewrite lookupDomain_dotSuffixes.
    destruct (firstHit _ _) as [g|] eqn:Hhit; simpl; [|by eexists].
    apply firstHit_Some in Hhit as (k & _ & Hk).
    eexists. split; [done|]. by eapply Hd. }
  destruct (ParseIP host) as [ip|]; [|done].
  destruct (ipMap p !! IP_String ip) as [g|] eqn:Hg.
  { eexists. split; [done|]. by eapply Hi. }
  destruct (rangeCIDR (cidrMap p) ip) as [g|] eqn:Hr; [|done].
  apply rangeCIDR_elem in Hr as [c Hr].
  eexists. split; [done|]. by eapply Hc.
Qed.

Lemma NextDialer_Picked now dstAddr sp :
  groupOK sp → ∃ f, (strategy.NextDialer now dstAddr sp).1 = strategy.Picked f.
Proof.
  intros [[Hwf _]%reachable_groupInv Hlt].
  pose proof (wf_nonempty sp Hwf) as Hne.
  pose proof (avail_length sp Hwf) as Hle.
  rewrite NextDialer_unfold.
  destruct (strategy.allowedAt _ now); [|by eexists].
  case_decide.
  - destruct (atMod_Picked (strategy.fwdrs sp) (strategy.addIndex sp) Hne Hlt)
      as (f & _ & ->).
    by exists f.
  - apply callNext_Picked; [done|lia].
Qed.

Lemma NextDialer_groupOK now dstAddr sp :
  groupOK sp → groupOK (strategy.NextDialer now dstAddr sp).2.
Proof.
  intros [Hr Hlt]. split; [by apply strategy.reach_NextDialer|].
  destruct (NextDialer_state now dstAddr sp) as (_ & -> & _). done.
Qed.

(** X24: the router never fails to answer: for a router whose groups
    are in states they can reach, of fewer than 2^32 forwarders, and
    whose maps refer to its own groups, [NextDialer] returns a
    forwarder at any instant and for any address, and leaves such a
    router. *)
Theorem router_NextDialer_returns now dstAddr (p : Proxy) :
  routerOK p →
  ∃ f p', NextDialer now dstAddr p = Some (strategy.Picked f, p')
          ∧ routerOK p'.
Proof.
  intros (HD & Hall & Hv). unfold NextDialer.
  destruct (nextProxy_valid dstAddr p Hv) as (g & -> & Hg). simpl.
  assert (∃ sp, groupAt g p = Some sp ∧ groupOK sp) as (sp & -> & Hsp).
  { destruct g as [|i]; simpl; [by eexists|].
    destruct (lookup_lt_is_Some_2 _ _ Hg) as [sp Hi].
    exists sp. split; [done|].
    by apply (proj1 (Forall_lookup _ _) Hall i). }
  simpl.
  destruct (NextDialer_Picked now dstAddr sp Hsp) as [f Hf].
  pose proof (NextDialer_groupOK now dstAddr sp Hsp) as Hsp'.
  destruct (strategy.NextDialer now dstAddr sp) as [r sp']. simpl in *.
  subst r. exists f. eexists. split; [done|].
  destruct Hv as (Hd & Hi & Hc).
  destruct g as [|i]; unfold routerOK, validRouter; simpl.
  - done.
  - rewrite length_insert. split; [done|]. split; [|done].
    by apply Forall_insert.
Qed.

End router_groups.

(** *** The theorems on the sample router *)

Lemma routerR1R2_NewProxy :
  @rule.NewProxy sample.asciiOnly sample.ipv4 sample.bySort sample.urls
    [sample.R1; sample.R2] sample.groupDirect
  = Some sample.routerR1R2.
Proof.
  unfold sample.routerR1R2, sample.router.
  change (sample.NewProxy "default" [] sample.config)
    with (Some sample.groupDirect).
  cbn [mbind option_bind].
  assert (is_Some (@rule.NewProxy sample.asciiOnly sample.ipv4 sample.bySort
                     sample.urls [sample.R1; sample.R2] sample.groupDirect))
    as [r Hr].
  { apply (proj2 (is_Some_alt _)). vm_compute. exact I. }
  by rewrite Hr.
Qed.

Lemma routerLearnt_AddDomainIP :
  @rule.AddDomainIP sample.asciiOnly sample.ipv4
    "x.api.example.com" "10.0.0.1" sample.routerR1R2
  = Some sample.routerLearnt.
Proof. unfold sample.routerLearnt. by rewrite AddDomainIP_unfold. Qed.

Lemma routerR1R2_suffix :
  firstHit (rule.domainMap sample.routerR1R2)
    (dotSuffixes (@strings.ToLower sample.asciiOnly "x.api.example.com"))
  = Some 1%nat.
Proof. vm_compute. reflexivity. Qed.

(** The name [x.api.example.com] goes to the group of [example.com],
    the shortest suffix; its address, once learnt, goes to the group of
    [api.example.com], the longest. *)
Lemma AddDomainIP_then_nextProxy_witness :
  "10.0.0.1" ≠ ""
  ∧ @ParseIP sample.ipv4 "10.0.0.1" = Some [10; 0; 0; 1]
  ∧ @IP_String sample.ipv4 [10; 0; 0; 1] = "10.0.0.1"
  ∧ sample.nextProxy "x.api.example.com:443" sample.routerR1R2
    = Some (rule.ruleGroup 0)
  ∧ sample.nextProxy "10.0.0.1:443" sample.routerLearnt
    = Some (rule.ruleGroup 1).
Proof.
  assert ("10.0.0.1" ≠ "") as Hip by discriminate.
  assert (@ParseIP sample.ipv4 "10.0.0.1" = Some [10; 0; 0; 1]) as Hparse
    by reflexivity.
  assert (@IP_String sample.ipv4 [10; 0; 0; 1] = "10.0.0.1") as Hstr
    by reflexivity.
  split; [exact Hip|]. split; [exact Hparse|]. split; [exact Hstr|].
  split; [vm_compute; reflexivity|].
  apply (@AddDomainIP_then_nextProxy sample.asciiOnly sample.ipv4
           "x.api.example.com" "10.0.0.1" sample.routerR1R2
           sample.routerLearnt 1%nat "10.0.0.1:443" "443" [10; 0; 0; 1]
           Hip routerR1R2_suffix routerLearnt_AddDomainIP eq_refl Hparse Hstr).
Defined.

(** [notexample.com] ends with the letters of [example.com] and is no
    name below it. *)
Lemma nextProxy_default_iff_witness :
  net.SplitHostPort "notexample.com:80" = Some ("notexample.com", "80")
  ∧ @ParseIP sample.ipv4 "notexample.com" = None
  ∧ sample.nextProxy "notexample.com:80" sample.routerR1R2
    = Some rule.defaultGroup
  ∧ ∀ k, (k = "notexample.com" ∨ ∃ pre, "notexample.com" = pre +:+ String "." k) →
         rule.domainMap sample.routerR1R2 !! k = None.
Proof.
  split; [reflexivity|]. split; [reflexivity|].
  assert (sample.nextProxy "notexample.com:80" sample.routerR1R2
          = Some rule.defaultGroup) as Hd by (vm_compute; reflexivity).
  split; [exact Hd|].
  apply (proj1 (@nextProxy_default_iff sample.asciiOnly sample.ipv4
                  "notexample.com:80" "notexample.com" "80" sample.routerR1R2
                  eq_refl eq_refl) Hd).
Defined.

Lemma NewProxy_rule_groups_witness :
  rule.proxy sample.routerR1R2 = sample.groupDirect
  ∧ Forall2 (λ r sd, sample.NewProxy (rule.Name r) (rule.Forward r)
                       (rule.StrategyConfig r) = Some sd)
      [sample.R1; sample.R2] (rule.proxies sample.routerR1R2)
  ∧ validRouter sample.routerR1R2.
Proof.
  apply (@NewProxy_rule_groups sample.asciiOnly sample.ipv4 sample.bySort
           sample.urls [sample.R1; sample.R2] sample.groupDirect
           sample.routerR1R2 routerR1R2_NewProxy).
Defined.

Lemma NewProxy_domain_last_rule_witness :
  rule.domainMap sample.routerR1R2 !! "api.example.com" = Some 1%nat
  ∧ (∃ r, [sample.R1; sample.R2] !! 1%nat = Some r
          ∧ "api.example.com"
            ∈ @strings.ToLower sample.asciiOnly <$> rule.Domain r).
Proof.
  assert (rule.domainMap sample.routerR1R2 !! "api.example.com" = Some 1%nat)
    as Hk by (vm_compute; reflexivity).
  split; [exact Hk|].
  apply (proj1 (@NewProxy_domain_last_rule sample.asciiOnly sample.ipv4
                  sample.bySort sample.urls [sample.R1; sample.R2]
                  sample.groupDirect sample.routerR1R2 "api.example.com" 1%nat
                  routerR1R2_NewProxy) Hk).
Defined.

Lemma routerR1R2_routerOK :
  @routerOK sample.ipv4 sample.urls sample.bySort sample.routerR1R2.
Proof.
  apply (@NewProxy_routerOK sample.asciiOnly sample.ipv4 sample.bySort
           sample.urls bySort_laws urls_laws [sample.R1; sample.R2]
           sample.groupDirect sample.routerR1R2 routerR1R2_NewProxy).
  - split; [|vm_compute; reflexivity].
    by eapply (strategy.reach_NewProxy "default" [] sample.config).
  - intros r Hr.
    repeat (apply elem_of_cons in Hr as [->|Hr]; [vm_compute; reflexivity|]).
    by apply elem_of_nil in Hr.
Qed.

Lemma router_NextDialer_returns_witness :
  ∃ f p', @rule.NextDialer sample.asciiOnly sample.ipv4
            (timewindow.mkTime 1 12 30) "www.example.com:443" sample.routerR1R2
          = Some (strategy.Picked f, p')
          ∧ @routerOK sample.ipv4 sample.urls sample.bySort p'.
Proof.
  apply (@router_NextDialer_returns sample.asciiOnly sample.ipv4 sample.bySort
           sample.urls bySort_laws urls_laws (timewindow.mkTime 1 12 30)
           "www.example.com:443" sample.routerR1R2 routerR1R2_routerOK).
Defined.
